(** * OpenPNM.Geometry.models.throat_length

    A shallow embedding of the two throat-length models of
    [OpenPNM/Geometry/models/throat_length.py], [straight] and [voronoi],
    and the properties their specification states about them.

    - Numbers are IEEE-754 binary64 values (NumPy's [float64]): Rocq's
      primitive floats.  Python's integer literals [0] and [2] meet floats
      only, so they are the floats [0] and [2].
    - Index arrays hold integers ([Z]); an index into an array follows
      NumPy: a negative index counts from the end, an index out of range
      raises [IndexError].
    - The arrays a network or a geometry holds live in a store.  An object
      is a dictionary from property names to references into the store, so
      an in-place update of an array is seen through every reference to it.
      Neither function assigns to a key of a dictionary, so the dictionaries
      themselves are values.
    - A call is a computation in a state-and-exception monad.  The state is
      the store, the contents a fresh uninitialised allocation picks up, and
      the warnings the geometry's logger has received; an exception leaves
      the state as it was when it was raised.
    - [scipy.linalg.norm] checks that its argument is finite and hands it to
      the routine [nrm2] of the BLAS library SciPy is linked against.  Which
      float that routine returns for a row is the library's business, so the
      library is a parameter of [voronoi]: the class [Blas].

    The file has five parts: the program, the vocabulary of the statements,
    the lemmas, the properties of the specification, and further properties
    of the code. *)

From Stdlib Require Import ZArith Floats.
From stdpp Require Import base list gmap strings.

Set Warnings "-inexact-float".
Set Default Proof Using "Type".

(* ================================================================== *)
(** * Part I: the program *)

(** ** Exceptions and results *)

(** What [list.index], NumPy's broadcasting and the finiteness check of
    [scipy.linalg.norm] say when they raise [ValueError]. *)
Inductive value_error :=
| NotInList          (* "x is not in list" *)
| BroadcastMismatch  (* "operands could not be broadcast together" *)
| NotFinite.         (* "array must not contain infs or NaNs" *)

(** The Python exceptions the two models can raise.  [TypeError] stands
    for every failure caused by an array of an unexpected dtype or rank. *)
Inductive exn :=
| KeyError
| IndexError
| ValueError (why : value_error)
| TypeError.

(** The names the specification gives to these failures. *)
Definition MissingPropertyError : exn := KeyError.
Definition InvalidTopologyError : exn := IndexError.
Definition MappingNotFoundError : exn := ValueError NotInList.

Inductive result (A : Type) :=
| Ok (a : A)
| Raise (e : exn).
Arguments Ok {A} a.
Arguments Raise {A} e.

Definition rbind {A B} (r : result A) (k : A -> result B) : result B :=
  match r with
  | Ok a => k a
  | Raise e => Raise e
  end.

(** Running [f] over a list, left to right, up to the first exception. *)
Fixpoint traverse {A B} (f : A -> result B) (l : list A) : result (list B) :=
  match l with
  | [] => Ok []
  | x :: l' =>
      rbind (f x) (fun y =>
      rbind (traverse f l') (fun ys => Ok (y :: ys)))
  end.

(* ================================================================== *)
(** ** Arrays *)

(** A row of an [(n,3)] float array. *)
Record point := Point { px : float; py : float; pz : float }.

(** The arrays of the model, by dtype and shape. *)
Inductive ndarray :=
| IntArr (a : list Z)          (* shape (n,),  integer *)
| ConnArr (a : list (Z * Z))   (* shape (n,2), integer *)
| FloatArr (a : list float)    (* shape (n,),  float64 *)
| PointArr (a : list point).   (* shape (n,3), float64 *)

(** The BLAS library behind [scipy.linalg]: its routine [nrm2], on a row of
    three floats.  Reference BLAS, OpenBLAS and MKL scale, add and round in
    their own ways, so the routine is left open. *)
Class Blas := nrm2 : point -> float.

Module Np.

(** An integer index into an axis of length [n]: a negative index counts
    from the end, and an index outside [-n, n) is an [IndexError]. *)
Definition normalize_index (n : nat) (i : Z) : result nat :=
  if decide (0 <= i < Z.of_nat n)%Z then Ok (Z.to_nat i)
  else if decide (- Z.of_nat n <= i < 0)%Z then Ok (Z.to_nat (Z.of_nat n + i))
  else Raise IndexError.

(** [a[i]] for an integer [i]. *)
Definition item {A} (a : list A) (i : Z) : result A :=
  rbind (normalize_index (length a) i) (fun j =>
  match a !! j with
  | Some x => Ok x
  | None => Raise IndexError
  end).

(** [a[idx]] for an integer array (or list) [idx]: a new array holding
    [a[i]] for each [i] of [idx], in order. *)
Definition take {A} (a : list A) (idx : list Z) : result (list A) :=
  traverse (item a) idx.

(** A binary operation under NumPy's broadcasting along the first axis:
    equal lengths go element by element, an axis of length one is
    stretched, and any other pair of lengths is a [ValueError]. *)
Definition broadcast {A B C} (f : A -> B -> C) (a : list A) (b : list B)
  : result (list C) :=
  if decide (length a = length b) then Ok (zip_with f a b)
  else match a, b with
       | [x], _ => Ok (f x <$> b)
       | _, [y] => Ok ((fun x => f x y) <$> a)
       | _, _ => Raise (ValueError BroadcastMismatch)
       end.

(** [where(mask)[0]]: the positions at which [mask] holds, ascending. *)
Fixpoint where_from (i : nat) (mask : list bool) : list Z :=
  match mask with
  | [] => []
  | b :: mask' =>
      if b then Z.of_nat i :: where_from (S i) mask'
      else where_from (S i) mask'
  end.
Definition where_ (mask : list bool) : list Z := where_from 0 mask.

(** [any(mask)]. *)
Definition any (mask : list bool) : bool := existsb id mask.

(** [a[idx] = v] for an integer array [idx] and a scalar [v]: every index
    is checked first, then each position is overwritten in turn. *)
Definition put {A} (a : list A) (idx : list Z) (v : A) : result (list A) :=
  rbind (traverse (normalize_index (length a)) idx) (fun js =>
  Ok (foldl (fun acc j => <[j := v]> acc) a js)).

(** [a[i] = v] for an integer [i]. *)
Definition set_item {A} (a : list A) (i : Z) (v : A) : result (list A) :=
  rbind (normalize_index (length a) i) (fun j => Ok (<[j := v]> a)).

(** [list.index]: the position of the first element equal to [x]. *)
Fixpoint index (l : list Z) (x : Z) : result nat :=
  match l with
  | [] => Raise (ValueError NotInList)
  | y :: l' =>
      if decide (y = x) then Ok 0
      else rbind (index l' x) (fun i => Ok (S i))
  end.

(** Arithmetic on the rows of an [(n,3)] array, each operation rounded to
    binary64. *)
Definition sub3 (p q : point) : point :=
  Point (px p - px q) (py p - py q) (pz p - pz q).
Definition square3 (p : point) : point :=
  Point (px p * px p) (py p * py p) (pz p * pz p).
(** [sum(row)], added left to right. *)
Definition sum3 (p : point) : float := (px p + py p + pz p)%float.
(** [isfinite(row).all()]. *)
Definition all_finite (p : point) : bool :=
  is_finite (px p) && is_finite (py p) && is_finite (pz p).
(** [scipy.linalg.norm(row)] for a float row: [asarray_chkfinite] raises
    [ValueError] when an entry is NaN or infinite, and a finite row goes to
    the BLAS routine [nrm2]. *)
Definition norm {blas : Blas} (p : point) : result float :=
  if all_finite p then Ok (nrm2 p) else Raise (ValueError NotFinite).

End Np.

(* ================================================================== *)
(** ** The store, the objects and the monad *)

Definition loc := nat.

(** The state a call runs in: the arrays in memory, what a fresh
    uninitialised allocation finds in its cells, and the warnings the
    geometry's logger has received. *)
Record state := State {
  heap : list ndarray;
  junk : nat -> float;
  log : list string;
}.

(** A network maps property names to arrays and answers which throats carry
    a given label ([network.throats(label)]); the label query belongs to the
    network class, which this module only calls. *)
Record Network := {
  net_items : gmap string loc;
  net_throats : string -> list Z;
}.

(** A geometry has a name and maps property names to arrays. *)
Record Geometry := {
  geo_name : string;
  geo_items : gmap string loc;
}.

Definition M (A : Type) : Type := state -> result A * state.

Definition ret {A} (a : A) : M A := fun st => (Ok a, st).

Definition bind {A B} (m : M A) (k : A -> M B) : M B :=
  fun st =>
    match m st with
    | (Ok a, st') => k a st'
    | (Raise e, st') => (Raise e, st')
    end.

Definition lift {A} (r : result A) : M A := fun st => (r, st).

Declare Scope py_scope.
Delimit Scope py_scope with py.
Notation "x <- m ;; k" := (bind m (fun x => k))
  (at level 100, m at next level, right associativity) : py_scope.
Notation "m ;;; k" := (bind m (fun _ => k))
  (at level 100, right associativity) : py_scope.
Open Scope py_scope.

(** [obj[key]]: the array a dictionary holds under [key]. *)
Definition getitem (items : gmap string loc) (key : string) : M loc :=
  lift (match items !! key with
        | Some l => Ok l
        | None => Raise KeyError
        end).

(** Reading an array of the expected dtype and shape through a reference. *)
Definition ints (l : loc) : M (list Z) := fun st =>
  (match heap st !! l with Some (IntArr a) => Ok a | _ => Raise TypeError end, st).
Definition conns (l : loc) : M (list (Z * Z)) := fun st =>
  (match heap st !! l with Some (ConnArr a) => Ok a | _ => Raise TypeError end, st).
Definition floats (l : loc) : M (list float) := fun st =>
  (match heap st !! l with Some (FloatArr a) => Ok a | _ => Raise TypeError end, st).
Definition points (l : loc) : M (list point) := fun st =>
  (match heap st !! l with Some (PointArr a) => Ok a | _ => Raise TypeError end, st).

(** A new array object: it gets the next free reference. *)
Definition new (a : ndarray) : M loc := fun st =>
  (Ok (length (heap st)),
   State (heap st ++ [a]) (junk st) (log st)).

(** [ndarray(n)]: a new float array of [n] uninitialised cells. *)
Definition ndarray_ (n : nat) : M loc := fun st =>
  new (FloatArr (junk st <$> seq 0 n)) st.

(** Overwriting, in place, the float array behind a reference. *)
Definition update (l : loc) (f : list float -> result (list float)) : M unit :=
  fun st =>
    match heap st !! l with
    | Some (FloatArr a) =>
        match f a with
        | Ok a' => (Ok tt, State (<[l := FloatArr a']> (heap st)) (junk st) (log st))
        | Raise e => (Raise e, st)
        end
    | _ => (Raise TypeError, st)
    end.

(** [geometry._logger.warning(msg)]. *)
Definition warning (msg : string) : M unit := fun st =>
  (Ok tt, State (heap st) (junk st) (log st ++ [msg])).

(** [for x in xs: acc.append(body(x))]. *)
Fixpoint for_append {A B} (xs : list A) (body : A -> M B) : M (list B) :=
  match xs with
  | [] => ret []
  | x :: xs' =>
      y <- body x ;;
      ys <- for_append xs' body ;;
      ret (y :: ys)
  end.

(** [for x in xs: body(x)]. *)
Fixpoint for_each {A} (xs : list A) (body : A -> M unit) : M unit :=
  match xs with
  | [] => ret tt
  | x :: xs' => body x ;;; for_each xs' body
  end.

(* ================================================================== *)
(** ** The two models *)

Definition floor_value : float := 1e-9%float.

Definition negative_warning : string :=
  "Negative throat lengths are calculated. Arbitrary positive length assigned (1e9 meters)".

Definition negative (x : float) : bool := (x <? 0)%float.

(** [straight(network, geometry, pore_diameter)].  The slices
    [conns[:,0]] and [conns[:,1]] are views that are only ever read, so they
    are read where they are taken; every other intermediate array is a fresh
    object that is never written to and is kept as a value.  The array that
    [value[throats]] creates is written to in place, so it is allocated in the
    store, and the call returns the reference to it. *)
Definition straight (network : Network) (geometry : Geometry)
    (pore_diameter : string) : M loc :=
  let throats := net_throats network (geo_name geometry) in
  pore1 <- (l <- getitem (net_items network) "throat.conns" ;;
            c <- conns l ;; ret (fst <$> c)) ;;
  pore2 <- (l <- getitem (net_items network) "throat.conns" ;;
            c <- conns l ;; ret (snd <$> c)) ;;
  C1 <- (l <- getitem (net_items network) "pore.coords" ;;
         c <- points l ;; lift (Np.take c pore1)) ;;
  C2 <- (l <- getitem (net_items network) "pore.coords" ;;
         c <- points l ;; lift (Np.take c pore2)) ;;
  E <- (d <- lift (Np.broadcast Np.sub3 C1 C2) ;;
        ret ((fun r => PrimFloat.sqrt (Np.sum3 (Np.square3 r))) <$> d)) ;;
  D1 <- (l <- getitem (net_items network) pore_diameter ;;
         d <- floats l ;; lift (Np.take d pore1)) ;;
  D2 <- (l <- getitem (net_items network) pore_diameter ;;
         d <- floats l ;; lift (Np.take d pore2)) ;;
  S <- lift (Np.broadcast PrimFloat.add D1 D2) ;;
  value <- lift (Np.broadcast PrimFloat.sub E ((fun s => s / 2)%float <$> S)) ;;
  sel <- lift (Np.take value throats) ;;
  value <- new (FloatArr sel) ;;
  neg <- (v <- floats value ;; ret (negative <$> v)) ;;
  if Np.any neg then
    warning negative_warning ;;;
    Ts <- (v <- floats value ;; ret (Np.where_ (negative <$> v))) ;;
    update value (fun v => Np.put v Ts floor_value) ;;;
    ret value
  else
    ret value.

(** [voronoi(network, geometry)].  The array [value] is allocated
    uninitialised and filled in place by the last loop; the call returns the
    reference to it.  In the body of that loop the left operand of the sum is
    evaluated, row and norm, before the right one. *)
Definition voronoi {blas : Blas} (network : Network) (geometry : Geometry) : M loc :=
  throats <- (l <- getitem (geo_items geometry) "throat.map" ;; ints l) ;;
  connections <- (l <- getitem (net_items network) "throat.conns" ;;
                  c <- conns l ;; lift (Np.take c throats)) ;;
  let net_pore1 := fst <$> connections in
  let net_pore2 := snd <$> connections in
  geom_pore1 <- for_append net_pore1 (fun net_pore =>
      l <- getitem (geo_items geometry) "pore.map" ;;
      pore_map <- ints l ;;
      lift (Np.index pore_map net_pore)) ;;
  geom_pore2 <- for_append net_pore2 (fun net_pore =>
      l <- getitem (geo_items geometry) "pore.map" ;;
      pore_map <- ints l ;;
      lift (Np.index pore_map net_pore)) ;;
  pore_centroids <- (l <- getitem (geo_items geometry) "pore.centroid" ;; points l) ;;
  throat_centroids <- (l <- getitem (geo_items geometry) "throat.centroid" ;; points l) ;;
  v1 <- (p <- lift (Np.take pore_centroids (Z.of_nat <$> geom_pore1)) ;;
         lift (Np.broadcast Np.sub3 throat_centroids p)) ;;
  v2 <- (p <- lift (Np.take pore_centroids (Z.of_nat <$> geom_pore2)) ;;
         lift (Np.broadcast Np.sub3 throat_centroids p)) ;;
  value <- ndarray_ (length connections) ;;
  for_each (seq 0 (length connections)) (fun i =>
      r1 <- lift (Np.item v1 (Z.of_nat i)) ;;
      n1 <- lift (Np.norm r1) ;;
      r2 <- lift (Np.item v2 (Z.of_nat i)) ;;
      n2 <- lift (Np.norm r2) ;;
      update value (fun v => Np.set_item v (Z.of_nat i) (n1 + n2)%float)) ;;;
  ret value.

(* ================================================================== *)
(** * Part II: the vocabulary of the statements *)

(** ** [straight]: what a call computes *)

(** What lines 27 to 30 of the source make of one computed length. *)
Definition clamp (x : float) : float := if negative x then floor_value else x.

(** The Euclidean distance between two pore centres, as [straight] computes
    it: [sqrt(sum((c1 - c2)**2))]. *)
Definition distance (c1 c2 : point) : float :=
  PrimFloat.sqrt (Np.sum3 (Np.square3 (Np.sub3 c1 c2))).

(** The array [value[throats]] of [straight], as a function of the arrays
    the call reads: connections [cn], coordinates [co], diameters [dm] and
    the geometry's throats [throats]. *)
Definition straight_value (cn : list (Z * Z)) (co : list point)
    (dm : list float) (throats : list Z) : result (list float) :=
  rbind (Np.take co (fst <$> cn)) (fun C1 =>
  rbind (Np.take co (snd <$> cn)) (fun C2 =>
  rbind (Np.broadcast Np.sub3 C1 C2) (fun d =>
  let E := (fun r => PrimFloat.sqrt (Np.sum3 (Np.square3 r))) <$> d in
  rbind (Np.take dm (fst <$> cn)) (fun D1 =>
  rbind (Np.take dm (snd <$> cn)) (fun D2 =>
  rbind (Np.broadcast PrimFloat.add D1 D2) (fun S =>
  rbind (Np.broadcast PrimFloat.sub E ((fun s => s / 2)%float <$> S)) (fun value =>
  Np.take value throats))))))).

(** The state after a call of [straight] that selected the lengths [sel]. *)
Definition straight_final (st : state) (sel : list float) : state :=
  State (heap st ++ [FloatArr (clamp <$> sel)]) (junk st)
        (log st ++ if existsb negative sel then [negative_warning] else []).

(** An index that addresses an axis of length [n] from its start. *)
Definition valid_index (n : nat) (i : Z) : Prop := (0 <= i < Z.of_nat n)%Z.

(** The length [straight] computes for one throat, before clamping: the
    distance between the two pore centres minus the mean of the two pore
    diameters. *)
Definition raw_length (c1 c2 : point) (d1 d2 : float) : float :=
  (distance c1 c2 - (d1 + d2) / 2)%float.

(** The array an object holds under [key], read through the store. *)
Definition field (items : gmap string loc) (st : state) (key : string)
  : option ndarray :=
  match items !! key with
  | Some l => heap st !! l
  | None => None
  end.

(** The scenario of the specification: two pores at (0,0,0) and (3,0,0)
    with the same diameter [d], joined by one throat that belongs to the
    geometry. *)
Definition two_pore_network : Network := {|
  net_items := list_to_map [("throat.conns", 0); ("pore.coords", 1);
                            ("pore.diameter", 2)]%string;
  net_throats := fun label => if decide (label = "geo"%string) then [0%Z] else [];
|}.
Definition two_pore_geometry : Geometry := {|
  geo_name := "geo";
  geo_items := ∅;
|}.
Definition two_pore_state (d : float) : state := {|
  heap := [ConnArr [(0, 1)%Z]; PointArr [Point 0 0 0; Point 3 0 0]; FloatArr [d; d]];
  junk := fun _ => 0%float;
  log := [];
|}.

(** The same network with a third pore that coincides with the second, and
    a second throat between them that the geometry does not own: the
    computed length of that throat is negative. *)
Definition outside_state : state := {|
  heap := [ConnArr [(0, 1)%Z; (1, 2)%Z];
           PointArr [Point 0 0 0; Point 3 0 0; Point 3 0 0];
           FloatArr [1%float; 1%float; 1%float]];
  junk := fun _ => 0%float;
  log := [];
|}.

(* ================================================================== *)
(** ** [voronoi]: what a call computes *)

(** [obj[key]] read as an array of a given dtype and shape. *)
Definition read_ints (items : gmap string loc) (h : list ndarray) (key : string)
  : result (list Z) :=
  match items !! key with
  | None => Raise KeyError
  | Some l => match h !! l with Some (IntArr a) => Ok a | _ => Raise TypeError end
  end.
Definition read_conns (items : gmap string loc) (h : list ndarray) (key : string)
  : result (list (Z * Z)) :=
  match items !! key with
  | None => Raise KeyError
  | Some l => match h !! l with Some (ConnArr a) => Ok a | _ => Raise TypeError end
  end.
Definition read_points (items : gmap string loc) (h : list ndarray) (key : string)
  : result (list point) :=
  match items !! key with
  | None => Raise KeyError
  | Some l => match h !! l with Some (PointArr a) => Ok a | _ => Raise TypeError end
  end.

(** The translation of one network pore index into a geometry pore index,
    as the body of the two loops of [voronoi] does it. *)
Definition geom_pore (geo : Geometry) (h : list ndarray) (net_pore : Z) : result nat :=
  rbind (read_ints (geo_items geo) h "pore.map") (fun pore_map =>
  Np.index pore_map net_pore).

(** The number of throats and the arrays [v1] and [v2] of [voronoi], as a
    function of the store the call reads. *)
Definition voronoi_vectors (net : Network) (geo : Geometry) (h : list ndarray)
  : result (nat * list point * list point) :=
  rbind (read_ints (geo_items geo) h "throat.map") (fun throats =>
  rbind (rbind (read_conns (net_items net) h "throat.conns") (fun c =>
         Np.take c throats)) (fun connections =>
  rbind (traverse (geom_pore geo h) (fst <$> connections)) (fun geom_pore1 =>
  rbind (traverse (geom_pore geo h) (snd <$> connections)) (fun geom_pore2 =>
  rbind (read_points (geo_items geo) h "pore.centroid") (fun pore_centroids =>
  rbind (read_points (geo_items geo) h "throat.centroid") (fun throat_centroids =>
  rbind (rbind (Np.take pore_centroids (Z.of_nat <$> geom_pore1)) (fun p =>
         Np.broadcast Np.sub3 throat_centroids p)) (fun v1 =>
  rbind (rbind (Np.take pore_centroids (Z.of_nat <$> geom_pore2)) (fun p =>
         Np.broadcast Np.sub3 throat_centroids p)) (fun v2 =>
  Ok (length connections, v1, v2))))))))).

(** The value the last loop of [voronoi] stores at position [i]. *)
Definition throat_sum {blas : Blas} (v1 v2 : list point) (i : nat) : result float :=
  rbind (Np.item v1 (Z.of_nat i)) (fun r1 =>
  rbind (Np.norm r1) (fun n1 =>
  rbind (Np.item v2 (Z.of_nat i)) (fun r2 =>
  rbind (Np.norm r2) (fun n2 =>
  Ok (n1 + n2)%float)))).

(** The array a call of [voronoi] returns. *)
Definition voronoi_value {blas : Blas} (net : Network) (geo : Geometry) (h : list ndarray)
  : result (list float) :=
  rbind (voronoi_vectors net geo h) (fun '(n, v1, v2) =>
  traverse (throat_sum v1 v2) (seq 0 n)).

(** The arrays of a geometry and its network, as [voronoi] reads them. *)
Record voronoi_fields (net : Network) (geo : Geometry) (st : state)
    (tm : list Z) (cn : list (Z * Z)) (pm : list Z) (pc tc : list point) : Prop := {
  vf_throat_map : field (geo_items geo) st "throat.map" = Some (IntArr tm);
  vf_conns : field (net_items net) st "throat.conns" = Some (ConnArr cn);
  vf_pore_map : field (geo_items geo) st "pore.map" = Some (IntArr pm);
  vf_pore_centroid : field (geo_items geo) st "pore.centroid" = Some (PointArr pc);
  vf_throat_centroid : field (geo_items geo) st "throat.centroid" = Some (PointArr tc);
}.

(** The data-model invariants [voronoi] relies on: the throat map
    addresses the connection table, both endpoints of every throat of the
    geometry occur in the pore map, and there is one centroid per pore and
    per throat of the geometry. *)
Record voronoi_consistent (tm : list Z) (cn : list (Z * Z)) (pm : list Z)
    (pc tc : list point) : Prop := {
  vc_throats : Forall (valid_index (length cn)) tm;
  vc_pores : Forall (fun t => forall c, cn !! Z.to_nat t = Some c ->
                               c.1 ∈ pm /\ c.2 ∈ pm) tm;
  vc_pore_centroid : length pc = length pm;
  vc_throat_centroid : length tc = length tm;
}.

(** Every throat centroid of [tc] is at a finite offset from every pore
    centroid of [pc]: no difference of two coordinates is NaN or infinite
    (the difference of two finite numbers can overflow). *)
Definition finite_offsets (pc tc : list point) : Prop :=
  Forall (fun t => Forall (fun c =>
    is_finite (px t - px c)%float = true /\
    is_finite (py t - py c)%float = true /\
    is_finite (pz t - pz c)%float = true) pc) tc.

(** The length [voronoi] computes for one throat: what the library gives
    for the row from the centroid [c1] of one pore to the throat centroid
    [tc] plus what it gives for the row from the centroid [c2] of the
    other. *)
Definition centroid_length {blas : Blas} (tc c1 c2 : point) : float :=
  (nrm2 (Point (px tc - px c1) (py tc - py c1) (pz tc - pz c1)) +
   nrm2 (Point (px tc - px c2) (py tc - py c2) (pz tc - pz c2)))%float.

(** A library for the scenarios: the sum of the squares, added left to
    right, and its square root, each operation rounded to binary64.  It is
    exact on the rows of the scenarios below. *)
Definition naive_blas : Blas :=
  fun p => PrimFloat.sqrt (px p * px p + py p * py p + pz p * pz p).

(** The array [voronoi] returns, as a function of the arrays it reads:
    throat map [tm], connections [cn], pore map [pm], pore centroids [pc]
    and throat centroids [tc]. *)
Definition voronoi_arrays {blas : Blas} (tm : list Z) (cn : list (Z * Z)) (pm : list Z)
    (pc tc : list point) : result (list float) :=
  rbind (Np.take cn tm) (fun connections =>
  rbind (traverse (Np.index pm) (fst <$> connections)) (fun g1 =>
  rbind (traverse (Np.index pm) (snd <$> connections)) (fun g2 =>
  rbind (rbind (Np.take pc (Z.of_nat <$> g1)) (Np.broadcast Np.sub3 tc)) (fun v1 =>
  rbind (rbind (Np.take pc (Z.of_nat <$> g2)) (Np.broadcast Np.sub3 tc)) (fun v2 =>
  traverse (throat_sum v1 v2) (seq 0 (length connections))))))).

(** A geometry that owns the second throat of a three-pore network, with
    its pores listed in the order 1, 2. *)
Definition voronoi_network : Network := {|
  net_items := list_to_map [("throat.conns", 0)]%string;
  net_throats := fun _ => [];
|}.
Definition voronoi_geometry : Geometry := {|
  geo_name := "geo";
  geo_items := list_to_map [("throat.map", 1); ("pore.map", 2);
                            ("pore.centroid", 3); ("throat.centroid", 4)]%string;
|}.
Definition voronoi_state : state := {|
  heap := [ConnArr [(0, 1)%Z; (1, 2)%Z]; IntArr [1%Z]; IntArr [1%Z; 2%Z];
           PointArr [Point 3 0 0; Point 3 4 0]; PointArr [Point 3 1 0]];
  junk := fun _ => 0%float;
  log := [];
|}.

(** A throat that spans two geometries: the geometry lists pore 1 only, and
    the call fails on pore 2. *)
Definition cross_geometry_state : state := {|
  heap := [ConnArr [(0, 1)%Z; (1, 2)%Z]; IntArr [1%Z]; IntArr [1%Z];
           PointArr [Point 3 0 0]; PointArr [Point 3 1 0]];
  junk := fun _ => 0%float;
  log := [];
|}.

(** ** Two arrays whose rows are exchanged at some positions *)

(** [PairSw a b a' b']: at every position, the rows of [a'] and [b'] are the
    rows of [a] and [b], in the same order or exchanged. *)
Inductive PairSw {A} : list A -> list A -> list A -> list A -> Prop :=
| PairSw_nil : PairSw [] [] [] []
| PairSw_keep x y a b a' b' :
    PairSw a b a' b' -> PairSw (x :: a) (y :: b) (x :: a') (y :: b')
| PairSw_swap x y a b a' b' :
    PairSw a b a' b' -> PairSw (x :: a) (y :: b) (y :: a') (x :: b').

(** ** Exchanging the endpoints of a throat in the connection table *)

Definition swapped (c c' : Z * Z) : Prop := c' = c \/ c' = prod_swap c.

(* ================================================================== *)
(** ** Two other ways to translate pore indices *)

(** The specification's first alternative to the search: [voronoi] with
    direct indexing, where the network pore index is used as the geometry
    pore index. *)
Definition voronoi_direct {blas : Blas} (network : Network) (geometry : Geometry) : M loc :=
  throats <- (l <- getitem (geo_items geometry) "throat.map" ;; ints l) ;;
  connections <- (l <- getitem (net_items network) "throat.conns" ;;
                  c <- conns l ;; lift (Np.take c throats)) ;;
  let net_pore1 := fst <$> connections in
  let net_pore2 := snd <$> connections in
  pore_centroids <- (l <- getitem (geo_items geometry) "pore.centroid" ;; points l) ;;
  throat_centroids <- (l <- getitem (geo_items geometry) "throat.centroid" ;; points l) ;;
  v1 <- (p <- lift (Np.take pore_centroids net_pore1) ;;
         lift (Np.broadcast Np.sub3 throat_centroids p)) ;;
  v2 <- (p <- lift (Np.take pore_centroids net_pore2) ;;
         lift (Np.broadcast Np.sub3 throat_centroids p)) ;;
  value <- ndarray_ (length connections) ;;
  for_each (seq 0 (length connections)) (fun i =>
      r1 <- lift (Np.item v1 (Z.of_nat i)) ;;
      n1 <- lift (Np.norm r1) ;;
      r2 <- lift (Np.item v2 (Z.of_nat i)) ;;
      n2 <- lift (Np.norm r2) ;;
      update value (fun v => Np.set_item v (Z.of_nat i) (n1 + n2)%float)) ;;;
  ret value.

(** The reverse of a pore map, from network pore index to the first
    position that holds it, built once. *)
Fixpoint reverse_map_from (i : nat) (pore_map : list Z) : gmap Z nat :=
  match pore_map with
  | [] => ∅
  | p :: pore_map' => <[p := i]> (reverse_map_from (S i) pore_map')
  end.
Definition reverse_map (pore_map : list Z) : gmap Z nat :=
  reverse_map_from 0 pore_map.

Definition reverse_lookup (rev : gmap Z nat) (net_pore : Z) : result nat :=
  match rev !! net_pore with
  | Some i => Ok i
  | None => Raise MappingNotFoundError
  end.

(** The specification's second alternative to the search: [voronoi] with
    a hash-based reverse lookup, built once per call. *)
Definition voronoi_hashed {blas : Blas} (network : Network) (geometry : Geometry) : M loc :=
  throats <- (l <- getitem (geo_items geometry) "throat.map" ;; ints l) ;;
  connections <- (l <- getitem (net_items network) "throat.conns" ;;
                  c <- conns l ;; lift (Np.take c throats)) ;;
  let net_pore1 := fst <$> connections in
  let net_pore2 := snd <$> connections in
  rev <- (l <- getitem (geo_items geometry) "pore.map" ;;
          pore_map <- ints l ;; ret (reverse_map pore_map)) ;;
  geom_pore1 <- for_append net_pore1 (fun net_pore =>
      lift (reverse_lookup rev net_pore)) ;;
  geom_pore2 <- for_append net_pore2 (fun net_pore =>
      lift (reverse_lookup rev net_pore)) ;;
  pore_centroids <- (l <- getitem (geo_items geometry) "pore.centroid" ;; points l) ;;
  throat_centroids <- (l <- getitem (geo_items geometry) "throat.centroid" ;; points l) ;;
  v1 <- (p <- lift (Np.take pore_centroids (Z.of_nat <$> geom_pore1)) ;;
         lift (Np.broadcast Np.sub3 throat_centroids p)) ;;
  v2 <- (p <- lift (Np.take pore_centroids (Z.of_nat <$> geom_pore2)) ;;
         lift (Np.broadcast Np.sub3 throat_centroids p)) ;;
  value <- ndarray_ (length connections) ;;
  for_each (seq 0 (length connections)) (fun i =>
      r1 <- lift (Np.item v1 (Z.of_nat i)) ;;
      n1 <- lift (Np.norm r1) ;;
      r2 <- lift (Np.item v2 (Z.of_nat i)) ;;
      n2 <- lift (Np.norm r2) ;;
      update value (fun v => Np.set_item v (Z.of_nat i) (n1 + n2)%float)) ;;;
  ret value.

(** A geometry that owns every pore and throat of a three-pore chain: its
    pore map is the identity. *)
Definition identity_network : Network := {|
  net_items := list_to_map [("throat.conns", 0)]%string;
  net_throats := fun _ => [0%Z; 1%Z];
|}.
Definition identity_geometry : Geometry := {|
  geo_name := "geo";
  geo_items := list_to_map [("throat.map", 1); ("pore.map", 2);
                            ("pore.centroid", 3); ("throat.centroid", 4)]%string;
|}.
Definition identity_state : state := {|
  heap := [ConnArr [(0, 1)%Z; (1, 2)%Z]; IntArr [0%Z; 1%Z]; IntArr [0%Z; 1%Z; 2%Z];
           PointArr [Point 0 0 0; Point 3 0 0; Point 3 4 0];
           PointArr [Point 1 0 0; Point 3 1 0]];
  junk := fun _ => 0%float;
  log := [];
|}.

(* ================================================================== *)
(** ** Signs in binary64 *)

(** A value that is not below zero: a zero of either sign, NaN, or a
    positive number or infinity. *)
Definition not_below_zero (f : spec_float) : Prop :=
  match f with
  | S754_zero _ | S754_nan => True
  | S754_infinity s | S754_finite s _ _ => s = false
  end.

(** Two values that differ in their sign at most. *)
Definition same_magnitude (f g : spec_float) : Prop :=
  match f, g with
  | S754_zero _, S754_zero _ | S754_nan, S754_nan
  | S754_infinity _, S754_infinity _ => True
  | S754_finite _ m e, S754_finite _ m' e' => m = m' /\ e = e'
  | _, _ => False
  end.

(* ================================================================== *)
(** ** [straight] on every input *)

Definition read_floats (items : gmap string loc) (h : list ndarray) (key : string)
  : result (list float) :=
  match items !! key with
  | None => Raise KeyError
  | Some l => match h !! l with Some (FloatArr a) => Ok a | _ => Raise TypeError end
  end.

(** The array [value[throats]] of [straight], as a function of the store
    the call reads, with the order of its reads. *)
Definition straight_selected (net : Network) (geo : Geometry) (pd : string)
    (h : list ndarray) : result (list float) :=
  let throats := net_throats net (geo_name geo) in
  rbind (rbind (read_conns (net_items net) h "throat.conns") (fun c =>
         Ok (fst <$> c))) (fun pore1 =>
  rbind (rbind (read_conns (net_items net) h "throat.conns") (fun c =>
         Ok (snd <$> c))) (fun pore2 =>
  rbind (rbind (read_points (net_items net) h "pore.coords") (fun c =>
         Np.take c pore1)) (fun C1 =>
  rbind (rbind (read_points (net_items net) h "pore.coords") (fun c =>
         Np.take c pore2)) (fun C2 =>
  rbind (rbind (Np.broadcast Np.sub3 C1 C2) (fun d =>
         Ok ((fun r => PrimFloat.sqrt (Np.sum3 (Np.square3 r))) <$> d))) (fun E =>
  rbind (rbind (read_floats (net_items net) h pd) (fun d =>
         Np.take d pore1)) (fun D1 =>
  rbind (rbind (read_floats (net_items net) h pd) (fun d =>
         Np.take d pore2)) (fun D2 =>
  rbind (Np.broadcast PrimFloat.add D1 D2) (fun S =>
  rbind (Np.broadcast PrimFloat.sub E ((fun s => s / 2)%float <$> S)) (fun value =>
  Np.take value throats))))))))).

(** An index NumPy accepts for an axis of length [n]. *)
Definition in_range (n : nat) (i : Z) : Prop :=
  (- Z.of_nat n <= i < Z.of_nat n)%Z.

(** ** Further scenarios *)

(** The three-pore network of [outside_state], read by two geometries: "geo"
    owns the first throat, "all" lists the second throat and then the
    first. *)
Definition shared_network : Network := {|
  net_items := list_to_map [("throat.conns", 0); ("pore.coords", 1);
                            ("pore.diameter", 2)]%string;
  net_throats := fun label =>
    if decide (label = "geo"%string) then [0%Z]
    else if decide (label = "all"%string) then [1%Z; 0%Z] else [];
|}.
Definition all_geometry : Geometry := {| geo_name := "all"; geo_items := ∅ |}.

(** The two-pore network with a second throat, outside the geometry, whose
    second endpoint is not a pore of the network. *)
Definition dangling_state : state := {|
  heap := [ConnArr [(0, 1)%Z; (1, 5)%Z]; PointArr [Point 0 0 0; Point 3 0 0];
           FloatArr [1%float; 1%float]];
  junk := fun _ => 0%float;
  log := [];
|}.

(** A geometry without throats and without a pore map. *)
Definition empty_geometry : Geometry := {|
  geo_name := "geo";
  geo_items := list_to_map [("throat.map", 1); ("pore.centroid", 2);
                            ("throat.centroid", 3)]%string;
|}.
Definition empty_state : state := {|
  heap := [ConnArr [(0, 1)%Z]; IntArr []; PointArr [Point 0 0 0]; PointArr []];
  junk := fun _ => 0%float;
  log := [];
|}.

(** The geometry of [voronoi_state] with a throat map that names a throat
    the network does not have. *)
Definition bad_throat_state : state := {|
  heap := [ConnArr [(0, 1)%Z; (1, 2)%Z]; IntArr [2%Z]; IntArr [1%Z; 2%Z];
           PointArr [Point 3 0 0; Point 3 4 0]; PointArr [Point 3 1 0]];
  junk := fun _ => 0%float;
  log := [];
|}.

(** The geometry of [voronoi_state] with a pore centroid that is not a
    number. *)
Definition nan_centroid_state : state := {|
  heap := [ConnArr [(0, 1)%Z; (1, 2)%Z]; IntArr [1%Z]; IntArr [1%Z; 2%Z];
           PointArr [Point 3 0 0; Point nan 4 0]; PointArr [Point 3 1 0]];
  junk := fun _ => 0%float;
  log := [];
|}.

(** A geometry that holds its two maps and no centroids. *)
Definition no_centroid_geometry : Geometry := {|
  geo_name := "geo";
  geo_items := list_to_map [("throat.map", 1); ("pore.map", 2)]%string;
|}.

(** The geometry of [identity_state] with three throat centroids for its
    two throats. *)
Definition mismatch_state : state := {|
  heap := [ConnArr [(0, 1)%Z; (1, 2)%Z]; IntArr [0%Z; 1%Z]; IntArr [0%Z; 1%Z; 2%Z];
           PointArr [Point 0 0 0; Point 3 0 0; Point 3 4 0];
           PointArr [Point 1 0 0; Point 3 1 0; Point 3 2 0]];
  junk := fun _ => 0%float;
  log := [];
|}.

(* ================================================================== *)
(** * Part III: lemmas *)

(* ================================================================== *)
(** ** Facts about results and arrays *)

Section traverse.
Context {A B : Type}.
Implicit Types (f g : A -> result B) (l : list A).

Lemma traverse_Ok f l ys :
  traverse f l = Ok ys <-> Forall2 (fun x y => f x = Ok y) l ys.
Proof.
  revert ys; induction l as [|x l IH]; intros ys; simpl.
  - split; [intros [= <-]; constructor | by inversion 1].
  - destruct (f x) as [y|e] eqn:Hx; simpl.
    + destruct (traverse f l) as [ys'|e] eqn:Hl; simpl.
      * split.
        -- intros [= <-]. constructor; [done|]. by apply IH.
        -- inversion 1 as [|? y' ? ys'' Hy Hys]; subst.
           apply IH in Hys. congruence.
      * split; [done|]. inversion 1 as [|? y' ? ys'' Hy Hys]; subst.
        apply IH in Hys. congruence.
    + split; [done|]. inversion 1; congruence.
Qed.

Lemma traverse_length f l ys : traverse f l = Ok ys -> length ys = length l.
Proof. intros H%traverse_Ok. symmetry. by eapply Forall2_length. Qed.

Lemma traverse_lookup f l ys i x :
  traverse f l = Ok ys -> l !! i = Some x ->
  exists y, ys !! i = Some y /\ f x = Ok y.
Proof.
  intros H%traverse_Ok Hi.
  destruct (Forall2_lookup_l _ _ _ _ _ H Hi) as (y & ? & ?). eauto.
Qed.

Lemma traverse_total f l :
  Forall (fun x => exists y, f x = Ok y) l -> exists ys, traverse f l = Ok ys.
Proof.
  induction 1 as [|x l [y Hy] _ [ys IH]]; simpl; [by eexists|].
  rewrite Hy, IH. simpl. by eexists.
Qed.

Lemma traverse_ext_Ok f g l ys :
  traverse f l = Ok ys ->
  (forall x y, x ∈ l -> f x = Ok y -> g x = Ok y) ->
  traverse g l = Ok ys.
Proof.
  rewrite !traverse_Ok. intros H Hfg.
  induction H as [|x y l ys Hxy _ IH]; constructor.
  - apply Hfg; [left | done].
  - apply IH. intros ? ? ?. apply Hfg. by right.
Qed.

Lemma traverse_ext f g l :
  (forall x, x ∈ l -> f x = g x) -> traverse f l = traverse g l.
Proof.
  induction l as [|x l IH]; intros H; simpl; [done|].
  rewrite (H x) by left. rewrite IH; [done|]. intros ? ?. apply H. by right.
Qed.

Lemma traverse_Raise f l e :
  traverse f l = Raise e -> exists x, x ∈ l /\ f x = Raise e.
Proof.
  induction l as [|x l IH]; simpl; [done|].
  destruct (f x) as [y|e'] eqn:Hx; simpl.
  - destruct (traverse f l) as [ys|e'] eqn:Hl; simpl; [done|].
    intros [= ->]. destruct IH as (x' & ? & ?); [done|].
    exists x'. split; [by right | done].
  - intros [= ->]. exists x. split; [left | done].
Qed.
End traverse.

Lemma traverse_fmap {A B C} (f : B -> result C) (g : A -> B) (l : list A) :
  traverse f (g <$> l) = traverse (fun x => f (g x)) l.
Proof. induction l as [|x l IH]; csimpl; [done|]. by rewrite IH. Qed.

Module NpFacts.
Import Np.

Lemma normalize_index_nat n i :
  i < n -> normalize_index n (Z.of_nat i) = Ok i.
Proof.
  intros Hi. unfold normalize_index.
  rewrite decide_True by lia. by rewrite Nat2Z.id.
Qed.

Lemma item_nat {A} (a : list A) i x :
  a !! i = Some x -> item a (Z.of_nat i) = Ok x.
Proof.
  intros Hi. unfold item.
  rewrite normalize_index_nat by (by eapply lookup_lt_Some).
  simpl. by rewrite Hi.
Qed.

Lemma item_nat_inv {A} (a : list A) i x :
  item a (Z.of_nat i) = Ok x -> a !! i = Some x.
Proof.
  unfold item, normalize_index.
  case_decide; simpl.
  - rewrite Nat2Z.id. destruct (a !! i); [by intros [= ->] | done].
  - case_decide; [lia | done].
Qed.

Lemma item_Ok {A} (a : list A) i x :
  item a i = Ok x <->
  exists j, normalize_index (length a) i = Ok j /\ a !! j = Some x.
Proof.
  unfold item. destruct (normalize_index (length a) i) as [j|e]; simpl.
  - destruct (a !! j) as [y|] eqn:Hj.
    + split; [intros [= ->]; eauto | intros (? & [= <-] & ?); congruence].
    + split; [done | intros (? & [= <-] & ?); congruence].
  - split; [done | by intros (? & ? & ?)].
Qed.

Lemma item_valid {A} (a : list A) i x :
  (0 <= i)%Z -> a !! Z.to_nat i = Some x -> item a i = Ok x.
Proof.
  intros Hi Hx. rewrite <- (Z2Nat.id i) by done. by apply item_nat.
Qed.

Lemma item_total {A} (a : list A) i :
  (0 <= i < Z.of_nat (length a))%Z -> exists x, item a i = Ok x.
Proof.
  intros Hi. destruct (lookup_lt_is_Some_2 a (Z.to_nat i)) as [x Hx]; [lia|].
  exists x. apply item_valid; [lia | done].
Qed.

Lemma take_length {A} (a : list A) idx xs :
  take a idx = Ok xs -> length xs = length idx.
Proof. apply traverse_length. Qed.

Lemma broadcast_same {A B C} (f : A -> B -> C) a b :
  length a = length b -> broadcast f a b = Ok (zip_with f a b).
Proof. intros H. unfold broadcast. by rewrite decide_True. Qed.

End NpFacts.

(* ================================================================== *)
(** ** Running the monad *)

Section monad_laws.
Context {A B : Type}.

Lemma bind_assoc {C} (m : M A) (k1 : A -> M B) (k2 : B -> M C) st :
  bind (bind m k1) k2 st = bind m (fun x => bind (k1 x) k2) st.
Proof. unfold bind. by destruct (m st) as [[a|e] st']. Qed.

Lemma bind_ret (a : A) (k : A -> M B) st : bind (ret a) k st = k a st.
Proof. done. Qed.

Lemma bind_lift (r : result A) (k : A -> M B) st :
  bind (lift r) k st =
  match r with Ok a => k a st | Raise e => (Raise e, st) end.
Proof. done. Qed.
End monad_laws.

Section primitives.
Context {B : Type}.

Lemma bind_getitem items key (k : loc -> M B) st :
  bind (getitem items key) k st =
  match items !! key with
  | Some l => k l st
  | None => (Raise KeyError, st)
  end.
Proof. unfold getitem, bind, lift. by destruct (items !! key). Qed.

Lemma bind_ints l (k : list Z -> M B) st :
  bind (ints l) k st =
  match heap st !! l with
  | Some (IntArr a) => k a st
  | _ => (Raise TypeError, st)
  end.
Proof. unfold ints, bind. by destruct (heap st !! l) as [[]|]. Qed.

Lemma bind_conns l (k : list (Z * Z) -> M B) st :
  bind (conns l) k st =
  match heap st !! l with
  | Some (ConnArr a) => k a st
  | _ => (Raise TypeError, st)
  end.
Proof. unfold conns, bind. by destruct (heap st !! l) as [[]|]. Qed.

Lemma bind_floats l (k : list float -> M B) st :
  bind (floats l) k st =
  match heap st !! l with
  | Some (FloatArr a) => k a st
  | _ => (Raise TypeError, st)
  end.
Proof. unfold floats, bind. by destruct (heap st !! l) as [[]|]. Qed.

Lemma bind_points l (k : list point -> M B) st :
  bind (points l) k st =
  match heap st !! l with
  | Some (PointArr a) => k a st
  | _ => (Raise TypeError, st)
  end.
Proof. unfold points, bind. by destruct (heap st !! l) as [[]|]. Qed.

Lemma bind_new a (k : loc -> M B) st :
  bind (new a) k st =
  k (length (heap st)) (State (heap st ++ [a]) (junk st) (log st)).
Proof. done. Qed.

Lemma bind_warning msg (k : unit -> M B) st :
  bind (warning msg) k st =
  k tt (State (heap st) (junk st) (log st ++ [msg])).
Proof. done. Qed.

(** Updating the array that was allocated last. *)
Lemma bind_update_last h a jk lg f (k : unit -> M B) :
  bind (update (length h) f) k (State (h ++ [FloatArr a]) jk lg) =
  match f a with
  | Ok a' => k tt (State (h ++ [FloatArr a']) jk lg)
  | Raise e => (Raise e, State (h ++ [FloatArr a]) jk lg)
  end.
Proof.
  unfold update, bind. simpl.
  rewrite list_lookup_middle by done.
  destruct (f a) as [a'|e]; [|done].
  rewrite insert_app_r_alt by done.
  by rewrite Nat.sub_diag.
Qed.
End primitives.

(** One step of a computation that reads the state. *)
Ltac py_step :=
  first [ rewrite bind_assoc | rewrite bind_ret | rewrite bind_lift
        | rewrite bind_getitem | rewrite bind_ints | rewrite bind_conns
        | rewrite bind_floats | rewrite bind_points ].

(* ================================================================== *)
(** ** Loops *)

(** A loop whose body only reads the state collects the results of its
    iterations, up to the first exception. *)
Lemma for_append_read {A B} (xs : list A) (body : A -> M B) (f : A -> result B) st :
  (forall x, body x st = (f x, st)) ->
  for_append xs body st = (traverse f xs, st).
Proof.
  intros Hbody. induction xs as [|x xs IH]; simpl; [done|].
  unfold bind at 1. rewrite Hbody. destruct (f x) as [y|e]; simpl; [|done].
  unfold bind at 1. rewrite IH. by destruct (traverse f xs).
Qed.

(* ================================================================== *)
(** ** The clamp of [straight] *)

Lemma put_where_from {A} (P : A -> bool) (c : A) (v pre : list A) :
  rbind (traverse (Np.normalize_index (length pre + length v))
           (Np.where_from (length pre) (P <$> v)))
        (fun js => Ok (foldl (fun acc j => <[j := c]> acc) (pre ++ v) js))
  = Ok (pre ++ ((fun x => if P x then c else x) <$> v)).
Proof.
  revert pre. induction v as [|x v IH]; intros pre; csimpl.
  { by rewrite (right_id_L [] (++)). }
  specialize (IH (pre ++ [if P x then c else x])).
  rewrite length_app in IH. csimpl in IH.
  replace (length pre + 1 + length v) with (length pre + S (length v)) in IH by lia.
  replace (length pre + 1) with (S (length pre)) in IH by lia.
  rewrite <- !(assoc_L (++)) in IH. csimpl in IH.
  destruct (P x); csimpl.
  - rewrite NpFacts.normalize_index_nat by lia. csimpl.
    destruct (traverse _ _) as [js|e]; csimpl in *; [|done].
    rewrite <- IH. do 2 f_equal.
    rewrite insert_app_r_alt by done. by rewrite Nat.sub_diag.
  - done.
Qed.

Lemma put_where (v : list float) :
  Np.put v (Np.where_ (negative <$> v)) floor_value = Ok (clamp <$> v).
Proof. apply (put_where_from negative floor_value v []). Qed.

Lemma any_negative (v : list float) :
  Np.any (negative <$> v) = existsb negative v.
Proof. unfold Np.any. induction v as [|x v IH]; csimpl; [done|]. by rewrite IH. Qed.

Lemma clamp_id (sel : list float) :
  existsb negative sel = false -> clamp <$> sel = sel.
Proof.
  induction sel as [|x sel IH]; simpl; [done|].
  intros [Hx Hsel]%orb_false_iff.
  unfold clamp at 1. rewrite Hx. f_equal. by apply IH.
Qed.

(* ================================================================== *)
(** ** Running [straight] *)

Lemma straight_tail sel st :
  (value <- new (FloatArr sel) ;;
   neg <- (v <- floats value ;; ret (negative <$> v)) ;;
   if Np.any neg then
     warning negative_warning ;;;
     Ts <- (v <- floats value ;; ret (Np.where_ (negative <$> v))) ;;
     update value (fun v => Np.put v Ts floor_value) ;;;
     ret value
   else
     ret value) st
  = (Ok (length (heap st)), straight_final st sel).
Proof.
  unfold straight_final.
  rewrite bind_new, bind_assoc, bind_floats. simpl.
  rewrite list_lookup_middle by done.
  rewrite bind_ret, any_negative.
  destruct (existsb negative sel) eqn:Hneg.
  - rewrite bind_warning, bind_assoc, bind_floats. simpl.
    rewrite list_lookup_middle by done.
    rewrite bind_ret, bind_update_last, put_where. done.
  - unfold ret. do 3 f_equal.
    + by rewrite clamp_id.
    + by rewrite (right_id_L [] (++)).
Qed.

Lemma straight_run net geo pd st lc cn lp co ld dm :
  net_items net !! "throat.conns"%string = Some lc -> heap st !! lc = Some (ConnArr cn) ->
  net_items net !! "pore.coords"%string = Some lp -> heap st !! lp = Some (PointArr co) ->
  net_items net !! pd = Some ld -> heap st !! ld = Some (FloatArr dm) ->
  straight net geo pd st =
  match straight_value cn co dm (net_throats net (geo_name geo)) with
  | Ok sel => (Ok (length (heap st)), straight_final st sel)
  | Raise e => (Raise e, st)
  end.
Proof.
  intros Hc Hcn Hp Hco Hd Hdm. unfold straight, straight_value.
  repeat (py_step; rewrite ?Hc, ?Hcn, ?Hp, ?Hco, ?Hd, ?Hdm).
  destruct (Np.take co (fst <$> cn)) as [C1|e]; simpl; [|done].
  repeat (py_step; rewrite ?Hc, ?Hcn, ?Hp, ?Hco, ?Hd, ?Hdm).
  destruct (Np.take co (snd <$> cn)) as [C2|e]; simpl; [|done].
  repeat (py_step; rewrite ?Hc, ?Hcn, ?Hp, ?Hco, ?Hd, ?Hdm).
  destruct (Np.broadcast Np.sub3 C1 C2) as [d|e]; simpl; [|done].
  repeat (py_step; rewrite ?Hc, ?Hcn, ?Hp, ?Hco, ?Hd, ?Hdm).
  destruct (Np.take dm (fst <$> cn)) as [D1|e]; simpl; [|done].
  repeat (py_step; rewrite ?Hc, ?Hcn, ?Hp, ?Hco, ?Hd, ?Hdm).
  destruct (Np.take dm (snd <$> cn)) as [D2|e]; simpl; [|done].
  repeat (py_step; rewrite ?Hc, ?Hcn, ?Hp, ?Hco, ?Hd, ?Hdm).
  destruct (Np.broadcast PrimFloat.add D1 D2) as [S|e]; simpl; [|done].
  repeat (py_step; rewrite ?Hc, ?Hcn, ?Hp, ?Hco, ?Hd, ?Hdm).
  destruct (Np.broadcast PrimFloat.sub _ _) as [value|e]; simpl; [|done].
  repeat (py_step; rewrite ?Hc, ?Hcn, ?Hp, ?Hco, ?Hd, ?Hdm).
  destruct (Np.take value _) as [sel|e]; simpl; [|done].
  apply straight_tail.
Qed.

(** Whatever the input, a call either raises and leaves the state alone, or
    returns a fresh array and at most one warning. *)
Lemma straight_outcome net geo pd st :
  (exists e, straight net geo pd st = (Raise e, st)) \/
  (exists sel, length sel = length (net_throats net (geo_name geo)) /\
     straight net geo pd st = (Ok (length (heap st)), straight_final st sel)).
Proof.
  unfold straight.
  repeat (first [py_step | case_match]; eauto).
  right. eexists. split; [|apply straight_tail].
  by eapply NpFacts.take_length.
Qed.

Lemma take_fmap_lookup {A B} (a : list A) (g : B -> Z) (l : list B) xs j x :
  Np.take a (g <$> l) = Ok xs -> xs !! j = Some x ->
  exists c, l !! j = Some c /\ Np.item a (g c) = Ok x.
Proof.
  unfold Np.take. rewrite traverse_fmap. intros H%traverse_Ok Hj.
  destruct (Forall2_lookup_r _ _ _ _ _ H Hj) as (c & ? & ?). eauto.
Qed.

Lemma take_fmap_total {A B} (a : list A) (g : B -> Z) (l : list B) :
  Forall (fun c => valid_index (length a) (g c)) l ->
  exists xs, Np.take a (g <$> l) = Ok xs.
Proof.
  intros H. unfold Np.take. rewrite traverse_fmap. apply traverse_total.
  eapply Forall_impl; [exact H|]. intros c Hc. by apply NpFacts.item_total.
Qed.

Lemma straight_value_lookup cn co dm th sel i t :
  straight_value cn co dm th = Ok sel -> th !! i = Some t ->
  exists p1 p2 c1 c2 d1 d2,
    Np.item cn t = Ok (p1, p2) /\
    Np.item co p1 = Ok c1 /\ Np.item co p2 = Ok c2 /\
    Np.item dm p1 = Ok d1 /\ Np.item dm p2 = Ok d2 /\
    sel !! i = Some (raw_length c1 c2 d1 d2).
Proof.
  unfold straight_value. intros H Hi.
  destruct (Np.take co (fst <$> cn)) as [C1|] eqn:HC1; simpl in H; [|done].
  destruct (Np.take co (snd <$> cn)) as [C2|] eqn:HC2; simpl in H; [|done].
  pose proof (NpFacts.take_length _ _ _ HC1) as L1.
  pose proof (NpFacts.take_length _ _ _ HC2) as L2.
  rewrite length_fmap in L1, L2.
  rewrite NpFacts.broadcast_same in H by congruence. simpl in H.
  destruct (Np.take dm (fst <$> cn)) as [D1|] eqn:HD1; simpl in H; [|done].
  destruct (Np.take dm (snd <$> cn)) as [D2|] eqn:HD2; simpl in H; [|done].
  pose proof (NpFacts.take_length _ _ _ HD1) as L3.
  pose proof (NpFacts.take_length _ _ _ HD2) as L4.
  rewrite length_fmap in L3, L4.
  rewrite NpFacts.broadcast_same in H by congruence. simpl in H.
  rewrite NpFacts.broadcast_same in H
    by (rewrite !length_fmap, !length_zip_with; lia).
  simpl in H.
  destruct (traverse_lookup _ _ _ _ _ H Hi) as (x & Hx & Hit).
  apply NpFacts.item_Ok in Hit as (j & Hn & Hj).
  rewrite length_zip_with, !length_fmap, !length_zip_with in Hn.
  replace (Nat.min (Nat.min (length C1) (length C2))
             (Nat.min (length D1) (length D2)))
    with (length cn) in Hn by lia.
  apply lookup_zip_with_Some in Hj as (e & s & -> & He & Hs).
  apply list_lookup_fmap_Some in He as (d & -> & Hd).
  apply list_lookup_fmap_Some in Hs as (s' & -> & Hs').
  apply lookup_zip_with_Some in Hd as (c1 & c2 & -> & Hc1 & Hc2).
  apply lookup_zip_with_Some in Hs' as (d1 & d2 & -> & Hd1 & Hd2).
  destruct (take_fmap_lookup _ _ _ _ _ _ HC1 Hc1) as ([p1 p2] & Hcn & Hi1).
  destruct (take_fmap_lookup _ _ _ _ _ _ HC2 Hc2) as (? & Hcn2 & Hi2).
  destruct (take_fmap_lookup _ _ _ _ _ _ HD1 Hd1) as (? & Hcn3 & Hi3).
  destruct (take_fmap_lookup _ _ _ _ _ _ HD2 Hd2) as (? & Hcn4 & Hi4).
  simplify_eq. simpl in *.
  exists p1, p2, c1, c2, d1, d2. repeat split; try done.
  apply NpFacts.item_Ok. eauto.
Qed.

Lemma rbind_Ok {A B} (r : result A) (k : A -> result B) b :
  rbind r k = Ok b -> exists a, r = Ok a /\ k a = Ok b.
Proof. destruct r as [a|e]; simpl; [eauto | done]. Qed.

Lemma straight_value_length cn co dm th sel :
  straight_value cn co dm th = Ok sel -> length sel = length th.
Proof.
  unfold straight_value. intros H.
  repeat (apply rbind_Ok in H as (? & _ & H)).
  by eapply NpFacts.take_length.
Qed.

Lemma straight_value_total cn co dm th :
  length dm = length co ->
  Forall (fun c => valid_index (length co) c.1 /\ valid_index (length co) c.2) cn ->
  Forall (valid_index (length cn)) th ->
  exists sel, straight_value cn co dm th = Ok sel.
Proof.
  intros Hdm Hcn Hth. unfold straight_value.
  destruct (take_fmap_total co fst cn) as [C1 HC1].
  { eapply Forall_impl; [exact Hcn|]. by intros ? [? ?]. }
  destruct (take_fmap_total co snd cn) as [C2 HC2].
  { eapply Forall_impl; [exact Hcn|]. by intros ? [? ?]. }
  destruct (take_fmap_total dm fst cn) as [D1 HD1].
  { rewrite Hdm. eapply Forall_impl; [exact Hcn|]. by intros ? [? ?]. }
  destruct (take_fmap_total dm snd cn) as [D2 HD2].
  { rewrite Hdm. eapply Forall_impl; [exact Hcn|]. by intros ? [? ?]. }
  pose proof (NpFacts.take_length _ _ _ HC1) as L1.
  pose proof (NpFacts.take_length _ _ _ HC2) as L2.
  pose proof (NpFacts.take_length _ _ _ HD1) as L3.
  pose proof (NpFacts.take_length _ _ _ HD2) as L4.
  rewrite length_fmap in L1, L2, L3, L4.
  rewrite HC1, HC2. simpl.
  rewrite NpFacts.broadcast_same by congruence. simpl.
  rewrite HD1, HD2. simpl.
  rewrite NpFacts.broadcast_same by congruence. simpl.
  rewrite NpFacts.broadcast_same
    by (rewrite !length_fmap, !length_zip_with; lia).
  simpl. apply traverse_total.
  eapply Forall_impl; [exact Hth|]. intros t Ht.
  apply NpFacts.item_total.
  rewrite length_zip_with, !length_fmap, !length_zip_with.
  unfold valid_index in Ht. lia.
Qed.

Lemma field_Some items st key a :
  field items st key = Some a ->
  exists l, items !! key = Some l /\ heap st !! l = Some a.
Proof. unfold field. destruct (items !! key) as [l|]; [eauto | done]. Qed.

Lemma straight_run_fields net geo pd st cn co dm :
  field (net_items net) st "throat.conns" = Some (ConnArr cn) ->
  field (net_items net) st "pore.coords" = Some (PointArr co) ->
  field (net_items net) st pd = Some (FloatArr dm) ->
  straight net geo pd st =
  match straight_value cn co dm (net_throats net (geo_name geo)) with
  | Ok sel => (Ok (length (heap st)), straight_final st sel)
  | Raise e => (Raise e, st)
  end.
Proof.
  intros (lc & ? & ?)%field_Some (lp & ? & ?)%field_Some (ld & ? & ?)%field_Some.
  by eapply straight_run.
Qed.

Lemma negative_floor : negative floor_value = false.
Proof. reflexivity. Qed.

Lemma clamp_not_negative x : negative (clamp x) = false.
Proof.
  unfold clamp. destruct (negative x) eqn:Hx; [apply negative_floor | done].
Qed.

(** ** Comparisons with zero in binary64 *)

Lemma Prim2SF_zero : Prim2SF 0 = S754_zero false.
Proof. reflexivity. Qed.

Lemma zero_not_negative x : (x =? 0)%float = true -> negative x = false.
Proof.
  unfold negative. rewrite FloatAxioms.eqb_spec, FloatAxioms.ltb_spec. unfold SFeqb, SFltb.
  by destruct (SFcompare _ _) as [[]|].
Qed.

Lemma not_negative_nonneg x :
  is_nan x = false -> negative x = false -> (0 <=? x)%float = true.
Proof.
  unfold negative, is_nan. rewrite FloatAxioms.eqb_spec, FloatAxioms.ltb_spec, FloatAxioms.leb_spec, Prim2SF_zero.
  unfold SFeqb, SFltb, SFleb.
  destruct (Prim2SF x) as [s|s| |s m e]; simpl; try done.
  - by destruct s.
  - by destruct s.
Qed.

(* ================================================================== *)
(** ** Running [voronoi] *)

Section with_blas.
Context {blas : Blas}.

Lemma norm_Ok (p : point) n :
  Np.norm p = Ok n <-> Np.all_finite p = true /\ n = nrm2 p.
Proof.
  unfold Np.norm. destruct (Np.all_finite p); split.
  - by intros [= <-].
  - by intros [_ ->].
  - done.
  - by intros [? _].
Qed.

Lemma norm_Raise (p : point) e : Np.norm p = Raise e -> e = ValueError NotFinite.
Proof. unfold Np.norm. destruct (Np.all_finite p); by intros [= <-]. Qed.

Lemma item_elem_of {A} (a : list A) i x : Np.item a i = Ok x -> x ∈ a.
Proof.
  intros (j & _ & Hj)%NpFacts.item_Ok. by eapply list_elem_of_lookup_2.
Qed.

Lemma take_elem_of {A} (a : list A) idx xs x :
  Np.take a idx = Ok xs -> x ∈ xs -> x ∈ a.
Proof.
  intros H%traverse_Ok (k & Hk)%list_elem_of_lookup.
  destruct (Forall2_lookup_r _ _ _ _ _ H Hk) as (i & _ & Hi).
  by eapply item_elem_of.
Qed.

(** At a finite offset the check of [linalg.norm] passes, and the row goes
    to the library. *)
Lemma norm_finite_offsets pc tc t c :
  finite_offsets pc tc -> t ∈ tc -> c ∈ pc ->
  Np.norm (Np.sub3 t c) = Ok (nrm2 (Np.sub3 t c)).
Proof.
  intros Hfin Ht Hc. unfold finite_offsets in Hfin.
  rewrite Forall_forall in Hfin. specialize (Hfin t Ht).
  rewrite Forall_forall in Hfin. destruct (Hfin c Hc) as (Hx & Hy & Hz).
  unfold Np.norm, Np.all_finite, Np.sub3. simpl. by rewrite Hx, Hy, Hz.
Qed.

Lemma set_item_middle {A} (pre rest : list A) (y x : A) :
  Np.set_item (pre ++ y :: rest) (Z.of_nat (length pre)) x
  = Ok ((pre ++ [x]) ++ rest).
Proof.
  unfold Np.set_item.
  rewrite NpFacts.normalize_index_nat by (rewrite length_app; simpl; lia).
  simpl. rewrite insert_app_r_alt by done.
  by rewrite Nat.sub_diag, <- (assoc_L (++)).
Qed.

(** The last loop of [voronoi], run on the array allocated just before. *)
Lemma for_each_fill h jk lg v1 v2 m : forall pre rest,
  length rest = m ->
  match traverse (throat_sum v1 v2) (seq (length pre) m) with
  | Ok ys =>
      for_each (seq (length pre) m) (fun i =>
        r1 <- lift (Np.item v1 (Z.of_nat i)) ;;
        n1 <- lift (Np.norm r1) ;;
        r2 <- lift (Np.item v2 (Z.of_nat i)) ;;
        n2 <- lift (Np.norm r2) ;;
        update (length h) (fun v =>
          Np.set_item v (Z.of_nat i) (n1 + n2)%float))
        (State (h ++ [FloatArr (pre ++ rest)]) jk lg)
      = (Ok tt, State (h ++ [FloatArr (pre ++ ys)]) jk lg)
  | Raise e =>
      exists a,
      for_each (seq (length pre) m) (fun i =>
        r1 <- lift (Np.item v1 (Z.of_nat i)) ;;
        n1 <- lift (Np.norm r1) ;;
        r2 <- lift (Np.item v2 (Z.of_nat i)) ;;
        n2 <- lift (Np.norm r2) ;;
        update (length h) (fun v =>
          Np.set_item v (Z.of_nat i) (n1 + n2)%float))
        (State (h ++ [FloatArr (pre ++ rest)]) jk lg)
      = (Raise e, State (h ++ [FloatArr a]) jk lg)
  end.
Proof.
  induction m as [|m IH]; intros pre rest Hrest.
  - destruct rest; [|done]. simpl. by rewrite (right_id_L [] (++)).
  - destruct rest as [|y rest]; [done|]. simpl in Hrest.
    simpl. unfold throat_sum at 1.
    rewrite bind_assoc, bind_lift.
    destruct (Np.item v1 _) as [r1|e]; simpl; [|by eexists].
    rewrite bind_assoc, bind_lift.
    destruct (Np.norm r1) as [n1|e]; simpl; [|by eexists].
    rewrite bind_assoc, bind_lift.
    destruct (Np.item v2 _) as [r2|e]; simpl; [|by eexists].
    rewrite bind_assoc, bind_lift.
    destruct (Np.norm r2) as [n2|e]; simpl; [|by eexists].
    rewrite bind_update_last, set_item_middle.
    specialize (IH (pre ++ [(n1 + n2)%float]) rest).
    rewrite length_app in IH. simpl in IH.
    replace (length pre + 1) with (S (length pre)) in IH by lia.
    destruct (traverse _ _) as [ys|e]; simpl.
    + rewrite IH by lia. by rewrite <- (assoc_L (++)).
    + apply IH. lia.
Qed.

Lemma geom_pore_loop geo (xs : list Z) st :
  for_append xs (fun net_pore =>
      l <- getitem (geo_items geo) "pore.map" ;;
      pore_map <- ints l ;;
      lift (Np.index pore_map net_pore)) st
  = (traverse (geom_pore geo (heap st)) xs, st).
Proof.
  apply for_append_read. intros x. unfold geom_pore, read_ints.
  rewrite bind_getitem.
  destruct (geo_items geo !! _) as [l|]; simpl; [|done].
  rewrite bind_ints. by destruct (heap st !! l) as [[]|].
Qed.

Lemma voronoi_run_cases net geo st :
  exists extra,
    voronoi net geo st =
    match voronoi_value net geo (heap st) with
    | Ok out =>
        (Ok (length (heap st)),
         State (heap st ++ [FloatArr out]) (junk st) (log st))
    | Raise e => (Raise e, State (heap st ++ extra) (junk st) (log st))
    end.
Proof.
  assert (Hst : forall e, exists extra : list ndarray,
             (Raise e : result loc, st) =
             (Raise e, State (heap st ++ extra) (junk st) (log st))).
  { intros e. exists []. rewrite (right_id_L [] (++)). by destruct st. }
  unfold voronoi_value, voronoi_vectors, voronoi, read_ints, read_conns, read_points.
  repeat py_step.
  destruct (geo_items geo !! "throat.map"%string) as [l|]; simpl; [|by apply Hst].
  repeat py_step.
  destruct (heap st !! l) as [[tm| | |]|]; simpl; try by apply Hst.
  repeat py_step.
  destruct (net_items net !! "throat.conns"%string) as [lc|]; simpl; [|by apply Hst].
  repeat py_step.
  destruct (heap st !! lc) as [[|cn| |]|]; simpl; try by apply Hst.
  repeat py_step.
  destruct (Np.take cn tm) as [connections|]; simpl; [|by apply Hst].
  unfold bind at 1. rewrite geom_pore_loop.
  destruct (traverse _ (fst <$> connections)) as [g1|]; simpl; [|by apply Hst].
  unfold bind at 1. rewrite geom_pore_loop.
  destruct (traverse _ (snd <$> connections)) as [g2|]; simpl; [|by apply Hst].
  repeat py_step.
  destruct (geo_items geo !! "pore.centroid"%string) as [lpc|]; simpl; [|by apply Hst].
  repeat py_step.
  destruct (heap st !! lpc) as [[| | |pc]|]; simpl; try by apply Hst.
  repeat py_step.
  destruct (geo_items geo !! "throat.centroid"%string) as [ltc|]; simpl; [|by apply Hst].
  repeat py_step.
  destruct (heap st !! ltc) as [[| | |tc]|]; simpl; try by apply Hst.
  repeat py_step.
  destruct (Np.take pc (Z.of_nat <$> g1)) as [p1|]; simpl; [|by apply Hst].
  repeat py_step.
  destruct (Np.broadcast Np.sub3 tc p1) as [v1|]; simpl; [|by apply Hst].
  repeat py_step.
  destruct (Np.take pc (Z.of_nat <$> g2)) as [p2|]; simpl; [|by apply Hst].
  repeat py_step.
  destruct (Np.broadcast Np.sub3 tc p2) as [v2|]; simpl; [|by apply Hst].
  unfold ndarray_. unfold bind at 1. simpl.
  pose proof (for_each_fill (heap st) (junk st) (log st) v1 v2
                (length connections) [] (junk st <$> seq 0 (length connections))) as Hfill.
  simpl in Hfill. rewrite length_fmap, length_seq in Hfill.
  specialize (Hfill eq_refl).
  destruct (traverse (throat_sum v1 v2) _) as [out|e].
  - exists []. unfold bind at 1. by rewrite Hfill.
  - destruct Hfill as [a Hfill]. exists [FloatArr a].
    unfold bind at 1. by rewrite Hfill.
Qed.

(** A call of [voronoi] returns a fresh array holding [voronoi_value], or
    raises; it leaves every array that was in the store alone and logs
    nothing. *)
Lemma voronoi_run_Ok net geo st out :
  voronoi_value net geo (heap st) = Ok out ->
  voronoi net geo st =
  (Ok (length (heap st)), State (heap st ++ [FloatArr out]) (junk st) (log st)).
Proof.
  intros H. destruct (voronoi_run_cases net geo st) as [extra Hrun].
  by rewrite H in Hrun.
Qed.

Lemma voronoi_run_Raise net geo st e :
  voronoi_value net geo (heap st) = Raise e ->
  exists extra,
    voronoi net geo st = (Raise e, State (heap st ++ extra) (junk st) (log st)).
Proof.
  intros H. destruct (voronoi_run_cases net geo st) as [extra Hrun].
  rewrite H in Hrun. eauto.
Qed.

Lemma voronoi_run_inv net geo st l st' :
  voronoi net geo st = (Ok l, st') ->
  exists out, voronoi_value net geo (heap st) = Ok out /\
    l = length (heap st) /\
    st' = State (heap st ++ [FloatArr out]) (junk st) (log st).
Proof.
  intros H. destruct (voronoi_run_cases net geo st) as [extra Hrun].
  rewrite H in Hrun.
  destruct (voronoi_value net geo (heap st)) as [out|e]; [|done].
  exists out. by simplify_eq.
Qed.

(** ** [list.index] *)

Lemma index_Ok (l : list Z) x i :
  Np.index l x = Ok i <-> l !! i = Some x /\ forall j, j < i -> l !! j <> Some x.
Proof.
  revert i. induction l as [|y l IH]; intros i; simpl.
  - split; [done | by intros [? _]].
  - case_decide as Hy; subst.
    + split.
      * intros [= <-]. split; [done | lia].
      * intros [Hi Hj]. destruct i as [|i]; [done|].
        by destruct (Hj 0 ltac:(lia)).
    + destruct i as [|i]; simpl.
      * split.
        -- destruct (Np.index l x); simpl; [by intros [= ?] | done].
        -- intros [[= ?] _]. done.
      * specialize (IH i). split.
        -- intros H. destruct (Np.index l x) as [i'|]; simpl in H; [|done].
           injection H as ->. destruct (proj1 IH eq_refl) as [Hi Hj].
           split; [done|]. intros [|j] ?; simpl; [congruence | apply Hj; lia].
        -- intros [Hi Hj]. rewrite (proj2 IH); [done|]. split; [done|].
           intros j ?. apply (Hj (S j)). lia.
Qed.

Lemma index_Raise (l : list Z) x e :
  Np.index l x = Raise e <-> e = ValueError NotInList /\ x ∉ l.
Proof.
  induction l as [|y l IH]; simpl.
  - split; [intros [= <-]; split; [done | apply not_elem_of_nil] | by intros [-> _]].
  - case_decide as Hy; subst.
    + split; [done|]. intros [_ Hx]. destruct Hx. left.
    + split.
      * intros H. destruct (Np.index l x) as [i'|e']; simpl in H; [done|].
        injection H as ->. destruct (proj1 IH eq_refl) as [-> Hx].
        split; [done|]. intros [?|?]%elem_of_cons; [congruence | done].
      * intros [-> Hx]. rewrite (proj2 IH); [done|]. split; [done|].
        intros ?. apply Hx. by right.
Qed.

Lemma index_total (l : list Z) x : x ∈ l -> exists i, Np.index l x = Ok i.
Proof.
  intros Hx. destruct (Np.index l x) as [i|e] eqn:Hi; [eauto|].
  apply index_Raise in Hi as [_ ?]. done.
Qed.

Lemma index_lookup (l : list Z) x i : Np.index l x = Ok i -> l !! i = Some x.
Proof. by intros [? _]%index_Ok. Qed.

(** ** The arrays [voronoi] reads *)

Lemma read_ints_field items st key a :
  field items st key = Some (IntArr a) -> read_ints items (heap st) key = Ok a.
Proof.
  intros (l & Hl & Ha)%field_Some. unfold read_ints. by rewrite Hl, Ha.
Qed.
Lemma read_conns_field items st key a :
  field items st key = Some (ConnArr a) -> read_conns items (heap st) key = Ok a.
Proof.
  intros (l & Hl & Ha)%field_Some. unfold read_conns. by rewrite Hl, Ha.
Qed.
Lemma read_points_field items st key a :
  field items st key = Some (PointArr a) -> read_points items (heap st) key = Ok a.
Proof.
  intros (l & Hl & Ha)%field_Some. unfold read_points. by rewrite Hl, Ha.
Qed.

Lemma geom_pore_field geo st pm p :
  field (geo_items geo) st "pore.map" = Some (IntArr pm) ->
  geom_pore geo (heap st) p = Np.index pm p.
Proof. intros H. unfold geom_pore. by rewrite (read_ints_field _ _ _ _ H). Qed.

Section voronoi_arrays.
Variables (tm : list Z) (cn : list (Z * Z)) (pm : list Z) (pc tc : list point).


Lemma voronoi_arrays_lookup_finite out i t :
  length tc = length tm ->
  voronoi_arrays tm cn pm pc tc = Ok out -> tm !! i = Some t ->
  exists p1 p2 g1 g2 c1 c2 tci,
    Np.item cn t = Ok (p1, p2) /\
    Np.index pm p1 = Ok g1 /\ Np.index pm p2 = Ok g2 /\
    pc !! g1 = Some c1 /\ pc !! g2 = Some c2 /\ tc !! i = Some tci /\
    out !! i = Some (centroid_length tci c1 c2) /\
    Np.all_finite (Np.sub3 tci c1) = true /\
    Np.all_finite (Np.sub3 tci c2) = true.
Proof.
  unfold voronoi_arrays. intros Htc H Hi.
  apply rbind_Ok in H as (connections & Hconn & H).
  apply rbind_Ok in H as (g1 & Hg1 & H).
  apply rbind_Ok in H as (g2 & Hg2 & H).
  apply rbind_Ok in H as (v1 & Hv1 & H).
  apply rbind_Ok in H as (v2 & Hv2 & H).
  apply rbind_Ok in Hv1 as (q1 & Hq1 & Hv1).
  apply rbind_Ok in Hv2 as (q2 & Hq2 & Hv2).
  pose proof (NpFacts.take_length _ _ _ Hconn) as Lc.
  pose proof (traverse_length _ _ _ Hg1) as L1.
  pose proof (traverse_length _ _ _ Hg2) as L2.
  pose proof (NpFacts.take_length _ _ _ Hq1) as L3.
  pose proof (NpFacts.take_length _ _ _ Hq2) as L4.
  rewrite length_fmap in L1. rewrite length_fmap in L2.
  rewrite length_fmap in L3. rewrite length_fmap in L4.
  rewrite NpFacts.broadcast_same in Hv1, Hv2 by congruence.
  injection Hv1 as <-. injection Hv2 as <-.
  assert (Hn : i < length connections).
  { rewrite Lc. by eapply lookup_lt_Some. }
  destruct (traverse_lookup _ _ _ i i H) as (y & Hy & Hsum).
  { by apply lookup_seq_lt. }
  unfold throat_sum in Hsum.
  apply rbind_Ok in Hsum as (r1 & Hr1 & Hsum).
  apply rbind_Ok in Hsum as (n1 & Hn1 & Hsum).
  apply rbind_Ok in Hsum as (r2 & Hr2 & Hsum).
  apply rbind_Ok in Hsum as (n2 & Hn2 & Hsum).
  injection Hsum as <-.
  apply norm_Ok in Hn1 as [F1 ->]. apply norm_Ok in Hn2 as [F2 ->].
  apply NpFacts.item_nat_inv, lookup_zip_with_Some in Hr1
    as (tci & c1 & -> & Htci & Hc1).
  apply NpFacts.item_nat_inv, lookup_zip_with_Some in Hr2
    as (tci' & c2 & -> & Htci' & Hc2).
  simplify_eq.
  destruct (take_fmap_lookup _ _ _ _ _ _ Hq1 Hc1) as (k1 & Hk1 & Hpc1).
  destruct (take_fmap_lookup _ _ _ _ _ _ Hq2 Hc2) as (k2 & Hk2 & Hpc2).
  apply NpFacts.item_nat_inv in Hpc1, Hpc2.
  rewrite traverse_fmap in Hg1, Hg2.
  apply traverse_Ok in Hg1, Hg2.
  destruct (Forall2_lookup_r _ _ _ _ _ Hg1 Hk1) as ([p1 p2] & Hci & Hi1).
  destruct (Forall2_lookup_r _ _ _ _ _ Hg2 Hk2) as (? & Hci' & Hi2).
  simplify_eq. simpl in *.
  apply traverse_Ok in Hconn.
  destruct (Forall2_lookup_r _ _ _ _ _ Hconn Hci) as (t' & Ht' & Hitem).
  simplify_eq.
  exists p1, p2, k1, k2, c1, c2, tci. done.
Qed.


Lemma voronoi_arrays_total_conn connections :
  Np.take cn tm = Ok connections ->
  Forall (fun c : Z * Z => c.1 ∈ pm /\ c.2 ∈ pm) connections ->
  length pc = length pm -> length tc = length tm ->
  finite_offsets pc tc ->
  exists out, voronoi_arrays tm cn pm pc tc = Ok out.
Proof.
  intros Hconn Hin Hpc Htc Hfin. unfold voronoi_arrays.
  rewrite Hconn. simpl.
  pose proof (NpFacts.take_length _ _ _ Hconn) as Lc.
  destruct (traverse_total (Np.index pm) (fst <$> connections)) as [g1 Hg1].
  { apply Forall_fmap. eapply Forall_impl; [exact Hin|].
    intros c [? _]. by apply index_total. }
  destruct (traverse_total (Np.index pm) (snd <$> connections)) as [g2 Hg2].
  { apply Forall_fmap. eapply Forall_impl; [exact Hin|].
    intros c [_ ?]. by apply index_total. }
  rewrite Hg1, Hg2. simpl.
  assert (Htake : forall ps gs, traverse (Np.index pm) ps = Ok gs ->
            exists q, Np.take pc (Z.of_nat <$> gs) = Ok q).
  { intros ps gs Hgs. apply take_fmap_total, Forall_lookup.
    intros i g Hg. apply traverse_Ok in Hgs.
    destruct (Forall2_lookup_r _ _ _ _ _ Hgs Hg) as (p & _ & Hidx).
    apply index_lookup, lookup_lt_Some in Hidx.
    unfold valid_index. lia. }
  destruct (Htake _ _ Hg1) as [q1 Hq1]. destruct (Htake _ _ Hg2) as [q2 Hq2].
  pose proof (traverse_length _ _ _ Hg1) as L1.
  pose proof (traverse_length _ _ _ Hg2) as L2.
  pose proof (NpFacts.take_length _ _ _ Hq1) as L3.
  pose proof (NpFacts.take_length _ _ _ Hq2) as L4.
  rewrite length_fmap in L1. rewrite length_fmap in L2.
  rewrite length_fmap in L3. rewrite length_fmap in L4.
  rewrite Hq1, Hq2. simpl.
  rewrite !NpFacts.broadcast_same by congruence. simpl.
  apply traverse_total, Forall_forall. intros i Hi%elem_of_seq.
  assert (Hrow : forall q gs, Np.take pc (Z.of_nat <$> gs) = Ok q ->
            length q = length connections ->
            exists r, Np.item (zip_with Np.sub3 tc q) (Z.of_nat i) = Ok r /\
                      Np.norm r = Ok (nrm2 r)).
  { intros q gs Hq Lq.
    destruct (NpFacts.item_total (zip_with Np.sub3 tc q) (Z.of_nat i)) as [r Hr].
    { rewrite length_zip_with. lia. }
    exists r. split; [done|].
    apply NpFacts.item_nat_inv, lookup_zip_with_Some in Hr
      as (t & c & -> & Ht & Hc).
    apply (norm_finite_offsets pc tc); [done | by eapply list_elem_of_lookup_2 |].
    eapply take_elem_of; [exact Hq | by eapply list_elem_of_lookup_2]. }
  unfold throat_sum.
  destruct (Hrow q1 g1 Hq1) as (r1 & Hr1 & Hn1); [congruence|].
  destruct (Hrow q2 g2 Hq2) as (r2 & Hr2 & Hn2); [congruence|].
  rewrite Hr1. simpl. rewrite Hn1. simpl. rewrite Hr2. simpl. rewrite Hn2.
  simpl. by eexists.
Qed.

Lemma voronoi_consistent_connections :
  voronoi_consistent tm cn pm pc tc ->
  exists connections,
    Np.take cn tm = Ok connections /\
    Forall (fun c : Z * Z => c.1 ∈ pm /\ c.2 ∈ pm) connections.
Proof.
  intros [Hth Hpores Hpc Htc].
  destruct (traverse_total (Np.item cn) tm) as [connections Hconn].
  { eapply Forall_impl; [exact Hth|]. intros t Ht. by apply NpFacts.item_total. }
  exists connections. split; [done|].
  apply Forall_lookup. intros i c Hc.
  apply traverse_Ok in Hconn.
  destruct (Forall2_lookup_r _ _ _ _ _ Hconn Hc) as (t & Ht & Hitem).
  pose proof (Forall_lookup_1 _ _ _ _ Hth Ht) as Hv.
  pose proof (Forall_lookup_1 _ _ _ _ Hpores Ht) as Hp.
  apply Hp. apply NpFacts.item_nat_inv.
  rewrite Z2Nat.id; [done | apply Hv].
Qed.

End voronoi_arrays.

(** [voronoi_value] in terms of the arrays read. *)
Lemma voronoi_value_arrays net geo st tm cn pm pc tc :
  voronoi_fields net geo st tm cn pm pc tc ->
  voronoi_value net geo (heap st) = voronoi_arrays tm cn pm pc tc.
Proof.
  intros [Htm Hcn Hpm Hpc Htc]. unfold voronoi_value, voronoi_vectors, voronoi_arrays.
  rewrite (read_ints_field _ _ _ _ Htm), (read_conns_field _ _ _ _ Hcn),
    (read_points_field _ _ _ _ Hpc), (read_points_field _ _ _ _ Htc). simpl.
  destruct (Np.take cn tm) as [connections|]; simpl; [|done].
  rewrite !(traverse_ext (geom_pore geo (heap st)) (Np.index pm))
    by (intros; by apply geom_pore_field).
  destruct (traverse _ (fst <$> connections)) as [g1|]; simpl; [|done].
  destruct (traverse _ (snd <$> connections)) as [g2|]; simpl; [|done].
  destruct (rbind (Np.take pc (Z.of_nat <$> g1)) _) as [v1|]; simpl; [|done].
  by destruct (rbind (Np.take pc (Z.of_nat <$> g2)) _) as [v2|].
Qed.




(** ** Which exceptions the steps of [voronoi] raise *)

Lemma item_Raise {A} (a : list A) i e : Np.item a i = Raise e -> e = IndexError.
Proof.
  unfold Np.item, Np.normalize_index.
  repeat case_decide; simpl; try destruct (a !! _); by intros [= <-].
Qed.

Lemma take_Raise {A} (a : list A) idx e : Np.take a idx = Raise e -> e = IndexError.
Proof. intros (i & _ & Hi)%traverse_Raise. by eapply item_Raise. Qed.

Lemma broadcast_Raise {A B C} (f : A -> B -> C) a b e :
  Np.broadcast f a b = Raise e -> e = ValueError BroadcastMismatch.
Proof.
  unfold Np.broadcast. case_decide; [done|].
  destruct a as [|? [|? ?]], b as [|? [|? ?]]; by intros [= <-].
Qed.

Lemma throat_sum_Raise v1 v2 i e :
  throat_sum v1 v2 i = Raise e -> e = IndexError \/ e = ValueError NotFinite.
Proof.
  unfold throat_sum.
  destruct (Np.item v1 _) as [r1|e1] eqn:H1; simpl;
    [|intros [= <-]; left; by eapply item_Raise].
  destruct (Np.norm r1) as [n1|e1] eqn:N1; simpl;
    [|intros [= <-]; right; by eapply norm_Raise].
  destruct (Np.item v2 _) as [r2|e2] eqn:H2; simpl;
    [|intros [= <-]; left; by eapply item_Raise].
  destruct (Np.norm r2) as [n2|e2] eqn:N2; simpl; [done|].
  intros [= <-]. right. by eapply norm_Raise.
Qed.

Lemma traverse_index_Raise pm (ps : list Z) e :
  traverse (Np.index pm) ps = Raise e ->
  e = ValueError NotInList /\ exists p, p ∈ ps /\ p ∉ pm.
Proof.
  intros (p & Hp & [-> ?]%index_Raise)%traverse_Raise. eauto.
Qed.

Lemma traverse_index_Ok pm (ps : list Z) gs p :
  traverse (Np.index pm) ps = Ok gs -> p ∈ ps -> p ∈ pm.
Proof.
  intros H%traverse_Ok (i & Hi)%list_elem_of_lookup.
  destruct (Forall2_lookup_l _ _ _ _ _ H Hi) as (g & _ & Hg).
  apply index_lookup in Hg. by eapply list_elem_of_lookup_2.
Qed.

(** The part of [voronoi] that follows the two translation loops never
    raises the exception of [list.index]. *)
Lemma voronoi_rest_not_mapping (rpc rtc : result (list point)) n g1 g2 :
  (forall e, rpc = Raise e -> e <> ValueError NotInList) ->
  (forall e, rtc = Raise e -> e <> ValueError NotInList) ->
  rbind
    (rbind rpc (fun pore_centroids =>
     rbind rtc (fun throat_centroids =>
     rbind (rbind (Np.take pore_centroids (Z.of_nat <$> g1)) (fun p =>
            Np.broadcast Np.sub3 throat_centroids p)) (fun v1 =>
     rbind (rbind (Np.take pore_centroids (Z.of_nat <$> g2)) (fun p =>
            Np.broadcast Np.sub3 throat_centroids p)) (fun v2 =>
     Ok (n, v1, v2))))))
    (fun '(n, v1, v2) => traverse (throat_sum v1 v2) (seq 0 n))
  <> Raise (ValueError NotInList).
Proof.
  intros Hpc Htc.
  destruct rpc as [pc|e]; simpl; [|intros [= ->]; by eapply Hpc].
  destruct rtc as [tc|e]; simpl; [|intros [= ->]; by eapply Htc].
  destruct (Np.take pc (Z.of_nat <$> g1)) as [q1|e] eqn:H1; simpl;
    [|by rewrite (take_Raise _ _ _ H1)].
  destruct (Np.broadcast Np.sub3 tc q1) as [v1|e] eqn:H2; simpl;
    [|by rewrite (broadcast_Raise _ _ _ _ H2)].
  destruct (Np.take pc (Z.of_nat <$> g2)) as [q2|e] eqn:H3; simpl;
    [|by rewrite (take_Raise _ _ _ H3)].
  destruct (Np.broadcast Np.sub3 tc q2) as [v2|e] eqn:H4; simpl;
    [|by rewrite (broadcast_Raise _ _ _ _ H4)].
  intros (i & _ & Hi)%traverse_Raise. by apply throat_sum_Raise in Hi as [?|?].
Qed.

Lemma read_points_not_mapping items h key e :
  read_points items h key = Raise e -> e <> ValueError NotInList.
Proof.
  unfold read_points. destruct (items !! key) as [l|]; [|by intros [= <-]].
  destruct (h !! l) as [[]|]; by intros [= <-].
Qed.

Lemma voronoi_value_mapping net geo st tm cn pm connections :
  field (geo_items geo) st "throat.map" = Some (IntArr tm) ->
  field (net_items net) st "throat.conns" = Some (ConnArr cn) ->
  field (geo_items geo) st "pore.map" = Some (IntArr pm) ->
  Np.take cn tm = Ok connections ->
  voronoi_value net geo (heap st) = Raise (ValueError NotInList) <->
  exists c, c ∈ connections /\ (c.1 ∉ pm \/ c.2 ∉ pm).
Proof.
  intros Htm Hcn Hpm Hconn. unfold voronoi_value, voronoi_vectors.
  rewrite (read_ints_field _ _ _ _ Htm), (read_conns_field _ _ _ _ Hcn). simpl.
  rewrite Hconn. simpl.
  rewrite !(traverse_ext (geom_pore geo (heap st)) (Np.index pm))
    by (intros; by apply geom_pore_field).
  destruct (traverse _ (fst <$> connections)) as [g1|e] eqn:Hg1; simpl.
  - destruct (traverse _ (snd <$> connections)) as [g2|e] eqn:Hg2; simpl.
    + split.
      * intros H. exfalso. revert H.
        apply voronoi_rest_not_mapping; apply read_points_not_mapping.
      * intros (c & Hc & [H1|H2]); exfalso.
        -- apply H1. eapply traverse_index_Ok; [exact Hg1|].
           by apply list_elem_of_fmap_2.
        -- apply H2. eapply traverse_index_Ok; [exact Hg2|].
           by apply list_elem_of_fmap_2.
    + apply traverse_index_Raise in Hg2 as (-> & p & Hp & Hnot).
      split; [intros _|done].
      apply list_elem_of_fmap in Hp as (c & -> & Hc). eauto.
  - apply traverse_index_Raise in Hg1 as (-> & p & Hp & Hnot).
    split; [intros _|done].
    apply list_elem_of_fmap in Hp as (c & -> & Hc). eauto.
Qed.


(** ** Addition of binary64 numbers commutes *)

Lemma SFadd_comm prec emax x y : SFadd prec emax x y = SFadd prec emax y x.
Proof.
  destruct x as [sx|sx| |sx mx ex], y as [sy|sy| |sy my ey]; simpl; try done.
  - by destruct sx, sy.
  - by destruct sx, sy.
  - by rewrite (Z.min_comm ey ex), Z.add_comm.
Qed.

Lemma float_add_comm (x y : float) : (x + y = y + x)%float.
Proof.
  apply Prim2SF_inj. rewrite !add_spec. apply SFadd_comm.
Qed.

(* ================================================================== *)
(** ** Arrays whose rows are exchanged *)

Lemma PairSw_length {A} (a b a' b' : list A) :
  PairSw a b a' b' ->
  length b = length a /\ length a' = length a /\ length b' = length a.
Proof. induction 1; simpl; lia. Qed.

Lemma PairSw_refl {A} (a b : list A) : length a = length b -> PairSw a b a b.
Proof.
  revert b. induction a as [|x a IH]; intros [|y b] ?; simplify_eq/=;
    constructor; auto.
Qed.

Lemma PairSw_flip {A} (a b : list A) : length a = length b -> PairSw a b b a.
Proof.
  revert b. induction a as [|x a IH]; intros [|y b] ?; simplify_eq/=;
    constructor; auto.
Qed.

Lemma PairSw_fmap {A B} (f : A -> B) (a b a' b' : list A) :
  PairSw a b a' b' -> PairSw (f <$> a) (f <$> b) (f <$> a') (f <$> b').
Proof. induction 1; csimpl; by constructor. Qed.

Lemma PairSw_zip_with {A B C} (f : A -> B -> C) (a b a' b' : list B) :
  PairSw a b a' b' -> forall t,
  PairSw (zip_with f t a) (zip_with f t b) (zip_with f t a') (zip_with f t b').
Proof.
  induction 1; intros [|z t]; simpl; try constructor; auto.
Qed.

Lemma PairSw_lookup {A} (a b a' b' : list A) i :
  PairSw a b a' b' ->
  (a' !! i = a !! i /\ b' !! i = b !! i) \/ (a' !! i = b !! i /\ b' !! i = a !! i).
Proof.
  intros H. revert i. induction H; intros [|i]; simpl; auto.
Qed.

Lemma PairSw_traverse {A B} (f : A -> result B) (a b a' b' : list A) u v :
  PairSw a b a' b' ->
  traverse f a = Ok u -> traverse f b = Ok v ->
  exists u' v', traverse f a' = Ok u' /\ traverse f b' = Ok v' /\ PairSw u v u' v'.
Proof.
  intros H. revert u v. induction H as [|x y a b a' b' H IH|x y a b a' b' H IH];
    intros u v Hu Hv; simpl in *.
  - simplify_eq. exists [], []. repeat split; constructor.
  - apply rbind_Ok in Hu as (x' & Hx & Hu). apply rbind_Ok in Hu as (u0 & Hu & [= <-]).
    apply rbind_Ok in Hv as (y' & Hy & Hv). apply rbind_Ok in Hv as (v0 & Hv & [= <-]).
    destruct (IH _ _ Hu Hv) as (u' & v' & -> & -> & ?).
    rewrite Hx, Hy. simpl. exists (x' :: u'), (y' :: v'). repeat split. by constructor.
  - apply rbind_Ok in Hu as (x' & Hx & Hu). apply rbind_Ok in Hu as (u0 & Hu & [= <-]).
    apply rbind_Ok in Hv as (y' & Hy & Hv). apply rbind_Ok in Hv as (v0 & Hv & [= <-]).
    destruct (IH _ _ Hu Hv) as (u' & v' & -> & -> & ?).
    rewrite Hx, Hy. simpl. exists (y' :: u'), (x' :: v'). repeat split. by constructor.
Qed.

Lemma PairSw_take {A} (pc : list A) (a b a' b' : list Z) u v :
  PairSw a b a' b' ->
  Np.take pc a = Ok u -> Np.take pc b = Ok v ->
  exists u' v', Np.take pc a' = Ok u' /\ Np.take pc b' = Ok v' /\ PairSw u v u' v'.
Proof. apply PairSw_traverse. Qed.

Lemma PairSw_single {A} (y z : A) a' b' :
  PairSw [y] [z] a' b' -> (a' = [y] /\ b' = [z]) \/ (a' = [z] /\ b' = [y]).
Proof.
  inversion 1 as [|? ? ? ? ? ? H'|? ? ? ? ? ? H']; subst; inversion H'; subst; auto.
Qed.

Lemma PairSw_broadcast {A B C} (f : A -> B -> C) (t : list A) (a b a' b' : list B) u v :
  PairSw a b a' b' ->
  Np.broadcast f t a = Ok u -> Np.broadcast f t b = Ok v ->
  exists u' v',
    Np.broadcast f t a' = Ok u' /\ Np.broadcast f t b' = Ok v' /\ PairSw u v u' v'.
Proof.
  intros H Hu Hv. pose proof (PairSw_length _ _ _ _ H) as (Lb & La' & Lb').
  unfold Np.broadcast in *.
  destruct (decide (length t = length a)) as [Ht|Ht].
  - rewrite !decide_True by congruence.
    rewrite decide_True in Hv by congruence. simplify_eq.
    do 2 eexists. repeat split. by apply PairSw_zip_with.
  - rewrite !decide_False by congruence.
    rewrite decide_False in Hv by congruence.
    destruct t as [|x [|x' t]].
    + destruct a as [|y [|? ?]]; [done| |done].
      destruct b as [|z [|? ?]]; try done. simplify_eq.
      destruct (PairSw_single _ _ _ _ H) as [[-> ->]|[-> ->]];
        do 2 eexists; repeat split; constructor; constructor.
    + simplify_eq. do 2 eexists. repeat split. by apply PairSw_fmap.
    + destruct a as [|y [|? ?]]; [done| |done].
      destruct b as [|z [|? ?]]; try done. simplify_eq.
      destruct (PairSw_single _ _ _ _ H) as [[-> ->]|[-> ->]];
        do 2 eexists; (repeat split);
        [apply PairSw_refl | apply PairSw_flip]; by rewrite !length_fmap.
Qed.

Lemma item_of_nat {A} (a : list A) i :
  Np.item a (Z.of_nat i) =
  match a !! i with Some x => Ok x | None => Raise IndexError end.
Proof.
  destruct (a !! i) as [x|] eqn:Hi; [by apply NpFacts.item_nat|].
  apply lookup_ge_None in Hi.
  unfold Np.item, Np.normalize_index.
  rewrite decide_False by lia. by rewrite decide_False by lia.
Qed.

Lemma throat_sum_swap v1 v2 v1' v2' i y :
  PairSw v1 v2 v1' v2' ->
  throat_sum v1 v2 i = Ok y -> throat_sum v1' v2' i = Ok y.
Proof.
  intros H. unfold throat_sum. rewrite !item_of_nat.
  destruct (PairSw_lookup _ _ _ _ i H) as [[-> ->]|[-> ->]]; [done|].
  destruct (v1 !! i) as [r1|], (v2 !! i) as [r2|]; simpl;
    repeat match goal with
           | |- context [Np.norm ?r] => destruct (Np.norm r); simpl
           end;
    try done.
  by rewrite float_add_comm.
Qed.

Lemma swapped_PairSw (cs cs' : list (Z * Z)) :
  Forall2 swapped cs cs' ->
  PairSw (fst <$> cs) (snd <$> cs) (fst <$> cs') (snd <$> cs').
Proof.
  induction 1 as [|[p q] c' cs cs' [->| ->] _ IH]; csimpl; by constructor.
Qed.

Lemma item_alter_swap (cn : list (Z * Z)) t i c :
  Np.item cn i = Ok c ->
  exists c', Np.item (alter prod_swap t cn) i = Ok c' /\ swapped c c'.
Proof.
  intros (j & Hn & Hj)%NpFacts.item_Ok.
  destruct (decide (t = j)) as [->|Hne].
  - exists (prod_swap c). split; [|by right].
    apply NpFacts.item_Ok. exists j. rewrite length_alter. split; [done|].
    by rewrite list_lookup_alter_eq, Hj.
  - exists c. split; [|by left].
    apply NpFacts.item_Ok. exists j. rewrite length_alter. split; [done|].
    by rewrite list_lookup_alter_ne.
Qed.

Lemma take_alter_swap (cn : list (Z * Z)) t tm cs :
  Np.take cn tm = Ok cs ->
  exists cs', Np.take (alter prod_swap t cn) tm = Ok cs' /\ Forall2 swapped cs cs'.
Proof.
  unfold Np.take. revert cs. induction tm as [|i tm IH]; intros cs H; simpl in *.
  - simplify_eq. exists []. by split.
  - apply rbind_Ok in H as (c & Hc & H). apply rbind_Ok in H as (cs0 & H & [= <-]).
    destruct (item_alter_swap cn t i c Hc) as (c' & -> & ?).
    destruct (IH _ H) as (cs' & -> & ?). simpl.
    exists (c' :: cs'). split; [done | by constructor].
Qed.

(** Replacing the connection table leaves every other read as it was. *)
Section replace_conns.
Variables (h : list ndarray) (lc : loc) (cn cn' : list (Z * Z)).
Hypothesis Hlc : h !! lc = Some (ConnArr cn).

Lemma read_ints_replace items key :
read_ints items (<[lc := ConnArr cn']> h) key = read_ints items h key.
Proof using Hlc.
unfold read_ints. destruct (items !! key) as [l|]; [|done].
destruct (decide (lc = l)) as [<-|Hne].
- rewrite list_lookup_insert_eq by (by eapply lookup_lt_Some). by rewrite Hlc.
- by rewrite list_lookup_insert_ne.
Qed.

Lemma read_points_replace items key :
read_points items (<[lc := ConnArr cn']> h) key = read_points items h key.
Proof using Hlc.
unfold read_points. destruct (items !! key) as [l|]; [|done].
destruct (decide (lc = l)) as [<-|Hne].
- rewrite list_lookup_insert_eq by (by eapply lookup_lt_Some). by rewrite Hlc.
- by rewrite list_lookup_insert_ne.
Qed.

Lemma read_conns_replace (items : gmap string loc) key :
items !! key = Some lc ->
read_conns items (<[lc := ConnArr cn']> h) key = Ok cn'.
Proof using Hlc.
intros Hk. unfold read_conns. rewrite Hk.
by rewrite list_lookup_insert_eq by (by eapply lookup_lt_Some).
Qed.

Lemma geom_pore_replace geo p :
geom_pore geo (<[lc := ConnArr cn']> h) p = geom_pore geo h p.
Proof using Hlc. unfold geom_pore. by rewrite read_ints_replace. Qed.
End replace_conns.

Lemma voronoi_value_swap net geo h lc cn t out :
  net_items net !! "throat.conns"%string = Some lc ->
  h !! lc = Some (ConnArr cn) ->
  voronoi_value net geo h = Ok out ->
  voronoi_value net geo (<[lc := ConnArr (alter prod_swap t cn)]> h) = Ok out.
Proof.
  intros Hk Hlc H. unfold voronoi_value, voronoi_vectors in *.
  apply rbind_Ok in H as ([[n v1] v2] & H & Hout).
  apply rbind_Ok in H as (tm & Htm & H).
  apply rbind_Ok in H as (connections & Hconn & H).
  apply rbind_Ok in Hconn as (cn0 & Hcn0 & Hconn).
  assert (cn0 = cn) as ->.
  { unfold read_conns in Hcn0. rewrite Hk, Hlc in Hcn0. by simplify_eq. }
  apply rbind_Ok in H as (g1 & Hg1 & H).
  apply rbind_Ok in H as (g2 & Hg2 & H).
  apply rbind_Ok in H as (pc & Hpc & H).
  apply rbind_Ok in H as (tc & Htc & H).
  apply rbind_Ok in H as (v1' & Hv1 & H).
  apply rbind_Ok in H as (v2' & Hv2 & H).
  apply rbind_Ok in Hv1 as (q1 & Hq1 & Hv1).
  apply rbind_Ok in Hv2 as (q2 & Hq2 & Hv2).
  simplify_eq.
  rewrite (read_ints_replace _ _ _ _ Hlc), Htm. simpl.
  rewrite (read_conns_replace _ _ _ _ Hlc _ _ Hk). simpl.
  destruct (take_alter_swap cn t tm connections Hconn) as (cs' & -> & Hsw). simpl.
  rewrite !(traverse_ext (geom_pore geo (<[lc:=_]> h)) (geom_pore geo h))
    by (intros; by eapply geom_pore_replace).
  destruct (PairSw_traverse _ _ _ _ _ _ _ (swapped_PairSw _ _ Hsw) Hg1 Hg2)
    as (g1' & g2' & -> & -> & Hg). simpl.
  rewrite !(read_points_replace _ _ _ _ Hlc), Hpc, Htc. simpl.
  destruct (PairSw_take pc _ _ _ _ _ _ (PairSw_fmap Z.of_nat _ _ _ _ Hg) Hq1 Hq2)
    as (q1' & q2' & -> & -> & Hq). simpl.
  destruct (PairSw_broadcast _ _ _ _ _ _ _ _ Hq Hv1 Hv2)
    as (w1 & w2 & -> & -> & Hw). simpl.
  rewrite <- (Forall2_length _ _ _ Hsw).
  eapply traverse_ext_Ok; [exact Hout|].
  intros i y _. by apply throat_sum_swap.
Qed.

(* ================================================================== *)
(** ** The other translations of pore indices *)

Lemma bind_geom_pore_loop {C} geo (xs : list Z) (k : list nat -> M C) st :
  bind (for_append xs (fun net_pore =>
      l <- getitem (geo_items geo) "pore.map" ;;
      pore_map <- ints l ;;
      lift (Np.index pore_map net_pore))) k st
  = match traverse (geom_pore geo (heap st)) xs with
    | Ok gs => k gs st
    | Raise e => (Raise e, st)
    end.
Proof. unfold bind at 1. by rewrite geom_pore_loop. Qed.

Lemma bind_for_append_lift {A B C} (xs : list A) (f : A -> result B)
    (k : list B -> M C) st :
  bind (for_append xs (fun x => lift (f x))) k st
  = match traverse f xs with
    | Ok ys => k ys st
    | Raise e => (Raise e, st)
    end.
Proof. unfold bind at 1. by rewrite (for_append_read xs _ f). Qed.

Lemma reverse_lookup_from pm p : forall k,
  reverse_lookup (reverse_map_from k pm) p
  = rbind (Np.index pm p) (fun i => Ok (k + i)).
Proof.
  unfold reverse_lookup. induction pm as [|y pm IH]; intros k; simpl; [done|].
  case_decide as Hy; subst.
  - rewrite lookup_insert_eq. simpl. f_equal. lia.
  - rewrite lookup_insert_ne by done. rewrite IH.
    destruct (Np.index pm p) as [i|e]; simpl; [f_equal; lia | done].
Qed.

Lemma reverse_lookup_index pm p :
  reverse_lookup (reverse_map pm) p = Np.index pm p.
Proof.
  unfold reverse_map. rewrite reverse_lookup_from.
  by destruct (Np.index pm p).
Qed.

Lemma index_seq_from n p : forall k,
  (Z.of_nat k <= p < Z.of_nat (k + n))%Z ->
  Np.index (Z.of_nat <$> seq k n) p = Ok (Z.to_nat p - k).
Proof.
  induction n as [|n IH]; intros k Hp; [lia|]. csimpl.
  case_decide as Hk.
  - f_equal. lia.
  - rewrite (IH (S k)) by lia. simpl. f_equal. lia.
Qed.

Lemma index_identity n p :
  valid_index n p -> Np.index (Z.of_nat <$> seq 0 n) p = Ok (Z.to_nat p).
Proof.
  intros Hp. rewrite (index_seq_from n p 0) by (unfold valid_index in Hp; simpl; lia).
  f_equal. lia.
Qed.

Lemma traverse_index_identity n (ps : list Z) :
  Forall (valid_index n) ps ->
  traverse (Np.index (Z.of_nat <$> seq 0 n)) ps = Ok (Z.to_nat <$> ps).
Proof.
  induction 1 as [|p ps Hp _ IH]; csimpl; [done|].
  by rewrite index_identity, IH.
Qed.

Lemma of_nat_to_nat_valid n (ps : list Z) :
  Forall (valid_index n) ps -> Z.of_nat <$> (Z.to_nat <$> ps) = ps.
Proof.
  induction 1 as [|p ps Hp _ IH]; csimpl; [done|].
  rewrite IH. f_equal. unfold valid_index in Hp. lia.
Qed.

(* ================================================================== *)
(** ** Signs and symmetry of the float operations *)

Lemma binary_round_aux_sign prec emax s mx ex lx :
  binary_round_aux prec emax s mx ex lx = S754_nan \/
  (exists m e, binary_round_aux prec emax s mx ex lx = S754_finite s m e) \/
  binary_round_aux prec emax s mx ex lx = S754_zero s \/
  binary_round_aux prec emax s mx ex lx = S754_infinity s.
Proof.
  unfold binary_round_aux.
  destruct (shr_fexp prec emax mx ex lx) as [mrs' e'].
  destruct (shr_fexp prec emax _ e' loc_Exact) as [mrs'' e''].
  destruct (shr_m mrs'') as [|m|m]; auto.
  destruct (e'' <=? emax - prec)%Z; eauto.
Qed.

Lemma binary_round_aux_not_below_zero prec emax mx ex lx :
  not_below_zero (binary_round_aux prec emax false mx ex lx).
Proof.
  destruct (binary_round_aux_sign prec emax false mx ex lx)
    as [->|[(m & e & ->)|[->| ->]]]; done.
Qed.

Lemma binary_round_aux_same_magnitude prec emax s s' mx ex lx :
  same_magnitude (binary_round_aux prec emax s mx ex lx)
                 (binary_round_aux prec emax s' mx ex lx).
Proof.
  unfold binary_round_aux.
  destruct (shr_fexp prec emax mx ex lx) as [mrs' e'].
  destruct (shr_fexp prec emax _ e' loc_Exact) as [mrs'' e''].
  destruct (shr_m mrs'') as [|m|m]; try done.
  by destruct (e'' <=? emax - prec)%Z.
Qed.

Lemma binary_round_not_below_zero prec emax m e :
  not_below_zero (binary_round prec emax false m e).
Proof.
  unfold binary_round. destruct (shl_align _ _ _) as [mz ez].
  apply binary_round_aux_not_below_zero.
Qed.

Lemma binary_round_same_magnitude prec emax s s' m e :
  same_magnitude (binary_round prec emax s m e) (binary_round prec emax s' m e).
Proof.
  unfold binary_round. destruct (shl_align _ _ _) as [mz ez].
  apply binary_round_aux_same_magnitude.
Qed.

Lemma SFsqrt_not_below_zero prec emax x : not_below_zero (SFsqrt prec emax x).
Proof.
  destruct x as [s|[]| |[] m e]; simpl; try done.
  destruct (SFsqrt_core_binary prec emax (Z.pos m) e) as [[mz ez] lz].
  apply binary_round_aux_not_below_zero.
Qed.

Lemma SFadd_not_below_zero prec emax x y :
  not_below_zero x -> not_below_zero y -> not_below_zero (SFadd prec emax x y).
Proof.
  destruct x as [sx|sx| |sx mx ex], y as [sy|sy| |sy my ey]; simpl;
    try done; intros Hx Hy; subst; try done.
  - by destruct sx, sy.
  - apply binary_round_not_below_zero.
Qed.

Lemma not_below_zero_ltb (x : float) :
  not_below_zero (Prim2SF x) -> (x <? 0)%float = false.
Proof.
  rewrite FloatAxioms.ltb_spec, Prim2SF_zero. unfold SFltb.
  destruct (Prim2SF x) as [s|s| |s m e]; simpl; try done; by intros ->.
Qed.

Lemma sqrt_not_below_zero (x : float) : not_below_zero (Prim2SF (PrimFloat.sqrt x)).
Proof. rewrite sqrt_spec. apply SFsqrt_not_below_zero. Qed.

Lemma ltb_not_below_zero (x : float) :
  (x <? 0)%float = false -> not_below_zero (Prim2SF x).
Proof.
  rewrite FloatAxioms.ltb_spec, Prim2SF_zero. unfold SFltb.
  destruct (Prim2SF x) as [s|s| |s m e]; simpl; try done; by destruct s.
Qed.

(** The sum of two numbers that are not below zero is not below zero. *)
Lemma sum_not_negative (a b : float) :
  negative a = false -> negative b = false -> negative (a + b) = false.
Proof.
  intros Ha Hb. apply not_below_zero_ltb. rewrite add_spec.
  apply SFadd_not_below_zero; by apply ltb_not_below_zero.
Qed.

Lemma naive_blas_not_negative (p : point) :
  negative (nrm2 (Blas := naive_blas) p) = false.
Proof. apply not_below_zero_ltb, sqrt_not_below_zero. Qed.

Lemma SFmul_square_same_magnitude prec emax x y :
  same_magnitude x y -> SFmul prec emax x x = SFmul prec emax y y.
Proof.
  destruct x as [sx|sx| |sx mx ex], y as [sy|sy| |sy my ey]; simpl; try done.
  - by destruct sx, sy.
  - by destruct sx, sy.
  - intros [-> ->]. by destruct sx, sy.
Qed.

Lemma SFsub_same_magnitude prec emax x y :
  same_magnitude (SFsub prec emax x y) (SFsub prec emax y x).
Proof.
  destruct x as [sx|sx| |sx mx ex], y as [sy|sy| |sy my ey]; simpl; try done.
  - by destruct sx, sy.
  - by destruct sx, sy.
  - rewrite (Z.min_comm ey ex).
    set (a := cond_Zopp sx _). set (b := cond_Zopp sy _).
    replace (b - a)%Z with (- (a - b))%Z by lia.
    destruct (a - b)%Z as [|m|m]; simpl; try done;
      apply binary_round_same_magnitude.
Qed.

Lemma square_sub_comm (x y : float) :
  ((x - y) * (x - y) = (y - x) * (y - x))%float.
Proof.
  apply Prim2SF_inj. rewrite !mul_spec, !sub_spec.
  apply SFmul_square_same_magnitude, SFsub_same_magnitude.
Qed.

Lemma distance_comm (c1 c2 : point) : distance c1 c2 = distance c2 c1.
Proof.
  unfold distance, Np.sum3, Np.square3, Np.sub3. simpl.
  by rewrite (square_sub_comm (px c1)), (square_sub_comm (py c1)),
    (square_sub_comm (pz c1)).
Qed.

(* ================================================================== *)
(** ** [straight]: the run on every input *)

Lemma straight_run_cases net geo pd st :
  straight net geo pd st =
  match straight_selected net geo pd (heap st) with
  | Ok sel => (Ok (length (heap st)), straight_final st sel)
  | Raise e => (Raise e, st)
  end.
Proof.
  unfold straight, straight_selected, read_conns, read_points, read_floats.
  repeat py_step.
  destruct (net_items net !! "throat.conns"%string) as [lc|] eqn:Hc; simpl; [|done].
  repeat py_step.
  destruct (heap st !! lc) as [[|cn| |]|] eqn:Hcn; simpl; try done.
  repeat (py_step; rewrite ?Hc, ?Hcn).
  destruct (net_items net !! "pore.coords"%string) as [lp|] eqn:Hp; simpl; [|done].
  repeat py_step.
  destruct (heap st !! lp) as [[| | |co]|] eqn:Hco; simpl; try done.
  repeat py_step.
  destruct (Np.take co (fst <$> cn)) as [C1|]; simpl; [|done].
  repeat (py_step; rewrite ?Hp, ?Hco).
  destruct (Np.take co (snd <$> cn)) as [C2|]; simpl; [|done].
  repeat py_step.
  destruct (Np.broadcast Np.sub3 C1 C2) as [d|]; simpl; [|done].
  repeat py_step.
  destruct (net_items net !! pd) as [ld|] eqn:Hd; simpl; [|done].
  repeat py_step.
  destruct (heap st !! ld) as [[| |dm|]|] eqn:Hdm; simpl; try done.
  repeat py_step.
  destruct (Np.take dm (fst <$> cn)) as [D1|]; simpl; [|done].
  repeat (py_step; rewrite ?Hd, ?Hdm).
  destruct (Np.take dm (snd <$> cn)) as [D2|]; simpl; [|done].
  repeat py_step.
  destruct (Np.broadcast PrimFloat.add D1 D2) as [S|]; simpl; [|done].
  repeat py_step.
  destruct (Np.broadcast PrimFloat.sub _ _) as [value|]; simpl; [|done].
  repeat py_step.
  destruct (Np.take value _) as [sel|]; simpl; [|done].
  apply straight_tail.
Qed.

Lemma straight_run_inv net geo pd st l st' :
  straight net geo pd st = (Ok l, st') ->
  exists sel, straight_selected net geo pd (heap st) = Ok sel /\
    l = length (heap st) /\ st' = straight_final st sel.
Proof.
  rewrite straight_run_cases.
  destruct (straight_selected net geo pd (heap st)) as [sel|e]; [|done].
  intros [= <- <-]. eauto.
Qed.

Lemma read_floats_field items st key a :
  field items st key = Some (FloatArr a) -> read_floats items (heap st) key = Ok a.
Proof.
  intros (l & Hl & Ha)%field_Some. unfold read_floats. by rewrite Hl, Ha.
Qed.

Lemma read_conns_Ok items h key a :
  read_conns items h key = Ok a ->
  exists l, items !! key = Some l /\ h !! l = Some (ConnArr a).
Proof.
  unfold read_conns. destruct (items !! key) as [l|]; [|done].
  destruct (h !! l) as [[]|] eqn:Hl; try done. intros [= ->]. eauto.
Qed.
Lemma read_points_Ok items h key a :
  read_points items h key = Ok a ->
  exists l, items !! key = Some l /\ h !! l = Some (PointArr a).
Proof.
  unfold read_points. destruct (items !! key) as [l|]; [|done].
  destruct (h !! l) as [[]|] eqn:Hl; try done. intros [= ->]. eauto.
Qed.
Lemma read_floats_Ok items h key a :
  read_floats items h key = Ok a ->
  exists l, items !! key = Some l /\ h !! l = Some (FloatArr a).
Proof.
  unfold read_floats. destruct (items !! key) as [l|]; [|done].
  destruct (h !! l) as [[]|] eqn:Hl; try done. intros [= ->]. eauto.
Qed.
Lemma read_ints_Ok items h key a :
  read_ints items h key = Ok a ->
  exists l, items !! key = Some l /\ h !! l = Some (IntArr a).
Proof.
  unfold read_ints. destruct (items !! key) as [l|]; [|done].
  destruct (h !! l) as [[]|] eqn:Hl; try done. intros [= ->]. eauto.
Qed.

(** When [straight] gets as far as selecting lengths, it has read a
    connection table, coordinates and diameters, and the lengths are
    [straight_value] of these. *)
Lemma straight_selected_Ok net geo pd h sel :
  straight_selected net geo pd h = Ok sel <->
  exists cn co dm,
    read_conns (net_items net) h "throat.conns" = Ok cn /\
    read_points (net_items net) h "pore.coords" = Ok co /\
    read_floats (net_items net) h pd = Ok dm /\
    straight_value cn co dm (net_throats net (geo_name geo)) = Ok sel.
Proof.
  unfold straight_selected, straight_value. split.
  - intros H.
    destruct (read_conns _ _ _) as [cn|]; simpl in H; [|done].
    destruct (read_points _ _ _) as [co|]; simpl in H; [|done].
    destruct (read_floats _ _ _) as [dm|] eqn:Hdm.
    + exists cn, co, dm. repeat split.
      destruct (Np.take co (fst <$> cn)) as [C1|]; simpl in *; [|done].
      destruct (Np.take co (snd <$> cn)) as [C2|]; simpl in *; [|done].
      by destruct (Np.broadcast Np.sub3 C1 C2) as [d|].
    + destruct (Np.take co (fst <$> cn)) as [C1|]; simpl in *; [|done].
      destruct (Np.take co (snd <$> cn)) as [C2|]; simpl in *; [|done].
      by destruct (Np.broadcast Np.sub3 C1 C2) as [d|].
  - intros (cn & co & dm & -> & -> & Hdm & H). simpl.
    destruct (Np.take co (fst <$> cn)) as [C1|]; simpl in *; [|done].
    destruct (Np.take co (snd <$> cn)) as [C2|]; simpl in *; [|done].
    destruct (Np.broadcast Np.sub3 C1 C2) as [d|]; simpl in *; [|done].
    by rewrite Hdm.
Qed.

(* ================================================================== *)
(** ** Indices NumPy accepts *)

Lemma normalize_index_in_range n i :
  (exists j, Np.normalize_index n i = Ok j) <-> in_range n i.
Proof.
  unfold Np.normalize_index, in_range. repeat case_decide; split;
    try (intros [j [= <-]]; lia); try (intros _; by eexists); try lia;
    by intros [j ?].
Qed.

Lemma item_in_range {A} (a : list A) i :
  (exists x, Np.item a i = Ok x) <-> in_range (length a) i.
Proof.
  rewrite <- normalize_index_in_range. split.
  - intros [x (j & ? & ?)%NpFacts.item_Ok]. eauto.
  - intros [j Hj]. unfold Np.item. rewrite Hj. simpl.
    destruct (a !! j) as [x|] eqn:Hx; [by eexists|].
    apply lookup_ge_None in Hx.
    unfold Np.normalize_index in Hj. repeat case_decide; simplify_eq; lia.
Qed.

Lemma take_in_range {A} (a : list A) idx :
  (exists xs, Np.take a idx = Ok xs) <-> Forall (in_range (length a)) idx.
Proof.
  split.
  - intros [xs H%traverse_Ok]. apply Forall_lookup. intros k i Hk.
    destruct (Forall2_lookup_l _ _ _ _ _ H Hk) as (x & _ & Hx).
    apply item_in_range. eauto.
  - intros H. apply traverse_total. eapply Forall_impl; [exact H|].
    intros i Hi. by apply item_in_range.
Qed.

(* ================================================================== *)
(** ** Reading through a larger store *)

Section extend.
Context (h extra : list ndarray) (items : gmap string loc) (key : string).

Lemma read_conns_extend a :
  read_conns items h key = Ok a -> read_conns items (h ++ extra) key = Ok a.
Proof.
  intros (l & Hl & Ha)%read_conns_Ok. unfold read_conns.
  by rewrite Hl, (lookup_app_l_Some _ _ _ _ Ha).
Qed.
Lemma read_points_extend a :
  read_points items h key = Ok a -> read_points items (h ++ extra) key = Ok a.
Proof.
  intros (l & Hl & Ha)%read_points_Ok. unfold read_points.
  by rewrite Hl, (lookup_app_l_Some _ _ _ _ Ha).
Qed.
Lemma read_floats_extend a :
  read_floats items h key = Ok a -> read_floats items (h ++ extra) key = Ok a.
Proof.
  intros (l & Hl & Ha)%read_floats_Ok. unfold read_floats.
  by rewrite Hl, (lookup_app_l_Some _ _ _ _ Ha).
Qed.
End extend.

Lemma straight_selected_extend net geo pd h extra sel :
  straight_selected net geo pd h = Ok sel ->
  straight_selected net geo pd (h ++ extra) = Ok sel.
Proof.
  rewrite !straight_selected_Ok. intros (cn & co & dm & ? & ? & ? & ?).
  exists cn, co, dm.
  repeat split; [by apply read_conns_extend | by apply read_points_extend
                | by apply read_floats_extend | done].
Qed.

Lemma PairSw_zip_with_comm {A C} (g : A -> A -> C) (a b a' b' : list A) :
  (forall x y, g x y = g y x) ->
  PairSw a b a' b' -> zip_with g a' b' = zip_with g a b.
Proof.
  intros Hg. induction 1; simpl; [done| |]; f_equal; auto.
Qed.

Lemma read_floats_replace h (lc : loc) (cn cn' : list (Z * Z)) items key :
  h !! lc = Some (ConnArr cn) ->
  read_floats items (<[lc := ConnArr cn']> h) key = read_floats items h key.
Proof.
  intros Hlc. unfold read_floats. destruct (items !! key) as [l|]; [|done].
  destruct (decide (lc = l)) as [->|Hne].
  - rewrite list_lookup_insert_eq by (by eapply lookup_lt_Some). by rewrite Hlc.
  - by rewrite list_lookup_insert_ne.
Qed.

Lemma zip_with_sub3_distance (a b : list point) :
  (fun r => PrimFloat.sqrt (Np.sum3 (Np.square3 r))) <$> zip_with Np.sub3 a b
  = zip_with distance a b.
Proof.
  revert b. induction a as [|x a IH]; intros [|y b]; csimpl; try done.
  by rewrite IH.
Qed.

(** Exchanging the endpoints of rows of the connection table leaves the
    lengths as they are. *)
Lemma straight_value_swap cn cn' co dm th sel :
  Forall2 swapped cn cn' ->
  straight_value cn co dm th = Ok sel -> straight_value cn' co dm th = Ok sel.
Proof.
  intros Hsw H. unfold straight_value in *.
  pose proof (swapped_PairSw _ _ Hsw) as Hp.
  apply rbind_Ok in H as (C1 & HC1 & H). apply rbind_Ok in H as (C2 & HC2 & H).
  destruct (PairSw_take co _ _ _ _ _ _ Hp HC1 HC2) as (C1' & C2' & -> & -> & HC).
  simpl.
  pose proof (PairSw_length _ _ _ _ HC) as (LC2 & LC1' & LC2').
  rewrite NpFacts.broadcast_same in H by congruence.
  rewrite NpFacts.broadcast_same by congruence. simpl in *.
  apply rbind_Ok in H as (D1 & HD1 & H). apply rbind_Ok in H as (D2 & HD2 & H).
  destruct (PairSw_take dm _ _ _ _ _ _ Hp HD1 HD2) as (D1' & D2' & -> & -> & HD).
  simpl.
  pose proof (PairSw_length _ _ _ _ HD) as (LD2 & LD1' & LD2').
  rewrite NpFacts.broadcast_same in H by congruence.
  rewrite NpFacts.broadcast_same by congruence. simpl in *.
  rewrite !zip_with_sub3_distance in *.
  rewrite (PairSw_zip_with_comm distance _ _ _ _ distance_comm HC).
  by rewrite (PairSw_zip_with_comm PrimFloat.add _ _ _ _ float_add_comm HD).
Qed.

Lemma alter_swapped (cn : list (Z * Z)) t :
  Forall2 swapped cn (alter prod_swap t cn).
Proof.
  apply Forall2_same_length_lookup_2; [by rewrite length_alter|].
  intros i c c' Hc Hc'. destruct (decide (t = i)) as [->|Hne].
  - rewrite list_lookup_alter_eq, Hc in Hc'. simplify_eq/=. by right.
  - rewrite list_lookup_alter_ne, Hc in Hc' by done. simplify_eq. by left.
Qed.

(* ================================================================== *)
(** ** [voronoi]: failures after the maps are read *)

Lemma broadcast_mismatch {A B C} (f : A -> B -> C) a b :
  length a <> length b -> length a <> 1 -> length b <> 1 ->
  Np.broadcast f a b = Raise (ValueError BroadcastMismatch).
Proof.
  intros. unfold Np.broadcast. rewrite decide_False by done.
  by destruct a as [|? [|? ?]], b as [|? [|? ?]].
Qed.

Lemma take_index_total pm (pc : list point) (ps : list Z) gs :
  traverse (Np.index pm) ps = Ok gs -> length pm <= length pc ->
  exists q, Np.take pc (Z.of_nat <$> gs) = Ok q.
Proof.
  intros Hgs Hle. apply take_fmap_total, Forall_lookup.
  intros i g Hg. apply traverse_Ok in Hgs.
  destruct (Forall2_lookup_r _ _ _ _ _ Hgs Hg) as (p & _ & Hidx).
  apply index_lookup, lookup_lt_Some in Hidx.
  unfold valid_index. lia.
Qed.

Lemma traverse_index_total pm (connections : list (Z * Z)) :
  Forall (fun c : Z * Z => c.1 ∈ pm /\ c.2 ∈ pm) connections ->
  (exists g1, traverse (Np.index pm) (fst <$> connections) = Ok g1) /\
  (exists g2, traverse (Np.index pm) (snd <$> connections) = Ok g2).
Proof.
  intros Hin. split; apply traverse_total, Forall_fmap;
    (eapply Forall_impl; [exact Hin|]); intros c [? ?]; by apply index_total.
Qed.

(** On arrays that pass the translation loops and hold enough centroids,
    the finiteness check is all that can fail. *)
Lemma voronoi_arrays_Raise tm cn pm pc tc connections e :
  Np.take cn tm = Ok connections ->
  Forall (fun c : Z * Z => c.1 ∈ pm /\ c.2 ∈ pm) connections ->
  length pm <= length pc -> length tc = length tm ->
  voronoi_arrays tm cn pm pc tc = Raise e -> e = ValueError NotFinite.
Proof.
  intros Hconn Hin Hpc Htc. unfold voronoi_arrays. rewrite Hconn. simpl.
  destruct (traverse_index_total pm connections Hin) as [[g1 Hg1] [g2 Hg2]].
  rewrite Hg1, Hg2. simpl.
  destruct (take_index_total _ _ _ _ Hg1 Hpc) as [q1 Hq1].
  destruct (take_index_total _ _ _ _ Hg2 Hpc) as [q2 Hq2].
  rewrite Hq1, Hq2. simpl.
  pose proof (NpFacts.take_length _ _ _ Hconn) as Lc.
  pose proof (traverse_length _ _ _ Hg1) as L1.
  pose proof (traverse_length _ _ _ Hg2) as L2.
  pose proof (NpFacts.take_length _ _ _ Hq1) as L3.
  pose proof (NpFacts.take_length _ _ _ Hq2) as L4.
  rewrite length_fmap in L1. rewrite length_fmap in L2.
  rewrite length_fmap in L3. rewrite length_fmap in L4.
  rewrite !NpFacts.broadcast_same by congruence. simpl.
  intros (i & Hi%elem_of_seq & Hsum)%traverse_Raise.
  unfold throat_sum in Hsum.
  destruct (NpFacts.item_total (zip_with Np.sub3 tc q1) (Z.of_nat i)) as [r1 Hr1].
  { rewrite length_zip_with. lia. }
  destruct (NpFacts.item_total (zip_with Np.sub3 tc q2) (Z.of_nat i)) as [r2 Hr2].
  { rewrite length_zip_with. lia. }
  rewrite Hr1 in Hsum. simpl in Hsum.
  destruct (Np.norm r1) as [n1|e1] eqn:N1; simpl in Hsum;
    [|injection Hsum as <-; by eapply norm_Raise].
  rewrite Hr2 in Hsum. simpl in Hsum.
  destruct (Np.norm r2) as [n2|e2] eqn:N2; simpl in Hsum; [done|].
  injection Hsum as <-. by eapply norm_Raise.
Qed.

Lemma norm_not_negative (p : point) n :
  (forall r, is_finite (px r) = true -> is_finite (py r) = true ->
             is_finite (pz r) = true -> (nrm2 r <? 0)%float = false) ->
  Np.norm p = Ok n -> negative n = false.
Proof.
  intros Hlib [Hfin ->]%norm_Ok. unfold Np.all_finite in Hfin.
  apply andb_prop in Hfin as [[Hx Hy]%andb_prop Hz]. by apply Hlib.
Qed.

Lemma throat_sum_not_negative v1 v2 i y :
  (forall r, is_finite (px r) = true -> is_finite (py r) = true ->
             is_finite (pz r) = true -> (nrm2 r <? 0)%float = false) ->
  throat_sum v1 v2 i = Ok y -> negative y = false.
Proof.
  intros Hlib. unfold throat_sum.
  destruct (Np.item v1 _) as [r1|]; simpl; [|done].
  destruct (Np.norm r1) as [n1|] eqn:N1; simpl; [|done].
  destruct (Np.item v2 _) as [r2|]; simpl; [|done].
  destruct (Np.norm r2) as [n2|] eqn:N2; simpl; [|done].
  intros [= <-]. apply sum_not_negative; by eapply norm_not_negative.
Qed.

End with_blas.

(* ================================================================== *)
(** * Part IV: the properties of the specification *)

(** ** [straight] *)

(** C1.  On a network whose connection table addresses its coordinates and
    diameters, and a geometry whose throats address the connection table,
    [straight] returns a new array with one entry per throat of the
    geometry, in the order in which the network lists those throats.  The
    entry of throat [t], before clamping, is the distance between the
    coordinates [(x1,y1,z1)] and [(x2,y2,z2)] of its two pores, the square
    root of [(x1-x2)^2 + (y1-y2)^2 + (z1-z2)^2], minus half the sum of their
    diameters, every operation rounded to binary64; the entry returned is
    that number, or the floor value when that number is below zero.  For two
    pores at (0,0,0) and (3,0,0) of diameter 1 joined by one throat the call
    returns the array [2.0] and logs nothing. *)
Theorem straight_lengths :
  (forall net geo pd st cn co dm,
      field (net_items net) st "throat.conns" = Some (ConnArr cn) ->
      field (net_items net) st "pore.coords" = Some (PointArr co) ->
      field (net_items net) st pd = Some (FloatArr dm) ->
      length dm = length co ->
      Forall (fun c => valid_index (length co) c.1 /\ valid_index (length co) c.2) cn ->
      Forall (valid_index (length cn)) (net_throats net (geo_name geo)) ->
      exists sel st',
        straight net geo pd st = (Ok (length (heap st)), st') /\
        heap st' !! length (heap st)
        = Some (FloatArr ((fun x => if (x <? 0)%float then floor_value else x)
                            <$> sel)) /\
        length sel = length (net_throats net (geo_name geo)) /\
        forall i t, net_throats net (geo_name geo) !! i = Some t ->
          exists p1 p2 x1 y1 z1 x2 y2 z2 d1 d2,
            cn !! Z.to_nat t = Some (p1, p2) /\
            co !! Z.to_nat p1 = Some (Point x1 y1 z1) /\
            co !! Z.to_nat p2 = Some (Point x2 y2 z2) /\
            dm !! Z.to_nat p1 = Some d1 /\ dm !! Z.to_nat p2 = Some d2 /\
            sel !! i = Some (PrimFloat.sqrt ((x1 - x2) * (x1 - x2) +
                                             (y1 - y2) * (y1 - y2) +
                                             (z1 - z2) * (z1 - z2))
                             - (d1 + d2) / 2)%float) /\
  straight two_pore_network two_pore_geometry "pore.diameter" (two_pore_state 1)
  = (Ok 3, State (heap (two_pore_state 1) ++ [FloatArr [2%float]])
               (junk (two_pore_state 1)) []).
Proof.
  split; [|by vm_compute].
  intros net geo pd st cn co dm Hcn Hco Hdm Hlen Hconns Hth.
  destruct (straight_value_total cn co dm _ Hlen Hconns Hth) as [sel Hsel].
  exists sel, (straight_final st sel).
  rewrite (straight_run_fields _ _ _ _ _ _ _ Hcn Hco Hdm), Hsel.
  split; [done|].
  split; [unfold straight_final; simpl; by apply list_lookup_middle|].
  split; [by eapply straight_value_length|].
  intros i t Hi.
  destruct (straight_value_lookup _ _ _ _ _ _ _ Hsel Hi)
    as (p1 & p2 & c1 & c2 & d1 & d2 & H0 & H1 & H2 & H3 & H4 & H5).
  pose proof (Forall_lookup_1 _ _ _ _ Hth Hi) as Ht.
  assert (Hc : cn !! Z.to_nat t = Some (p1, p2)).
  { apply NpFacts.item_nat_inv. rewrite Z2Nat.id; [done | apply Ht]. }
  pose proof (Forall_lookup_1 _ _ _ _ Hconns Hc) as [Hp1 Hp2]. simpl in *.
  destruct c1 as [x1 y1 z1], c2 as [x2 y2 z2].
  exists p1, p2, x1, y1, z1, x2, y2, z2, d1, d2.
  repeat split; try done; apply NpFacts.item_nat_inv;
    (rewrite Z2Nat.id; [done | first [apply Hp1 | apply Hp2]]).
Qed.

Lemma straight_lengths_witness :
  exists sel st',
    straight two_pore_network two_pore_geometry "pore.diameter" (two_pore_state 10)
    = (Ok 3, st') /\
    heap st' !! 3
    = Some (FloatArr ((fun x => if (x <? 0)%float then floor_value else x)
                        <$> sel)) /\
    length sel = 1 /\
    forall i t, [0%Z] !! i = Some t ->
      exists p1 p2 x1 y1 z1 x2 y2 z2 d1 d2,
        [(0, 1)%Z] !! Z.to_nat t = Some (p1, p2) /\
        [Point 0 0 0; Point 3 0 0] !! Z.to_nat p1 = Some (Point x1 y1 z1) /\
        [Point 0 0 0; Point 3 0 0] !! Z.to_nat p2 = Some (Point x2 y2 z2) /\
        [10%float; 10%float] !! Z.to_nat p1 = Some d1 /\
        [10%float; 10%float] !! Z.to_nat p2 = Some d2 /\
        sel !! i = Some (PrimFloat.sqrt ((x1 - x2) * (x1 - x2) +
                                         (y1 - y2) * (y1 - y2) +
                                         (z1 - z2) * (z1 - z2))
                         - (d1 + d2) / 2)%float.
Proof.
  apply (proj1 straight_lengths two_pore_network two_pore_geometry
           "pore.diameter"%string (two_pore_state 10)
           [(0, 1)%Z] [Point 0 0 0; Point 3 0 0] [10%float; 10%float]).
  - reflexivity.
  - reflexivity.
  - reflexivity.
  - reflexivity.
  - repeat constructor; simpl; lia.
  - repeat constructor; simpl; lia.
Defined.

(** C2.  When the lengths computed for the throats of the geometry are
    [sel] and one of them is negative, [straight] does not raise: it logs
    the warning once and returns a new array with one entry per throat of
    the geometry, in which every entry [x < 0] of [sel] is replaced by the
    floor value and every other entry is kept.  The floor value is [1e-9],
    which is positive. *)
Theorem straight_clamps_negative net geo pd st cn co dm sel :
  field (net_items net) st "throat.conns" = Some (ConnArr cn) ->
  field (net_items net) st "pore.coords" = Some (PointArr co) ->
  field (net_items net) st pd = Some (FloatArr dm) ->
  straight_value cn co dm (net_throats net (geo_name geo)) = Ok sel ->
  existsb negative sel = true ->
  exists out,
    straight net geo pd st =
      (Ok (length (heap st)),
       State (heap st ++ [FloatArr out]) (junk st) (log st ++ [negative_warning])) /\
    length out = length (net_throats net (geo_name geo)) /\
    (forall i x, sel !! i = Some x ->
       out !! i = Some (if (x <? 0)%float then floor_value else x)) /\
    floor_value = 1e-9%float /\ (0 <? floor_value)%float = true.
Proof.
  intros Hcn Hco Hdm Hsel Hneg. exists (clamp <$> sel).
  rewrite (straight_run_fields _ _ _ _ _ _ _ Hcn Hco Hdm), Hsel.
  unfold straight_final. rewrite Hneg.
  split; [done|]. split.
  { rewrite length_fmap. by eapply straight_value_length. }
  split; [|done].
  intros i x Hi. by rewrite list_lookup_fmap, Hi.
Qed.

(** The second scenario of the specification: the same two pores with
    diameter 10, whose computed length is 3 - 10 = -7. *)
Lemma straight_clamps_negative_witness :
  exists out,
    straight two_pore_network two_pore_geometry "pore.diameter" (two_pore_state 10) =
      (Ok 3, State (heap (two_pore_state 10) ++ [FloatArr out])
                   (junk (two_pore_state 10)) ([] ++ [negative_warning])) /\
    length out = 1 /\
    (forall i x, [(-7)%float] !! i = Some x ->
       out !! i = Some (if (x <? 0)%float then floor_value else x)) /\
    floor_value = 1e-9%float /\ (0 <? floor_value)%float = true.
Proof.
  apply (straight_clamps_negative two_pore_network two_pore_geometry
           "pore.diameter"%string (two_pore_state 10)
           [(0, 1)%Z] [Point 0 0 0; Point 3 0 0] [10%float; 10%float]
           [(-7)%float]); reflexivity.
Defined.

(** C9, as the code has it.  The comparison of the clamp is strict.  When
    the lengths computed for the throats of the geometry are [sel]: an entry
    equal to zero is returned as it is, and so is every entry that is not
    below zero; a call on which every entry is zero logs no warning; no
    entry of the returned array is below zero; and every entry of the
    returned array that is a number (not NaN) is at least zero. *)
Theorem straight_clamp_is_strict net geo pd st cn co dm sel :
  field (net_items net) st "throat.conns" = Some (ConnArr cn) ->
  field (net_items net) st "pore.coords" = Some (PointArr co) ->
  field (net_items net) st pd = Some (FloatArr dm) ->
  straight_value cn co dm (net_throats net (geo_name geo)) = Ok sel ->
  exists out st',
    straight net geo pd st = (Ok (length (heap st)), st') /\
    heap st' !! length (heap st) = Some (FloatArr out) /\
    (forall i x, sel !! i = Some x -> (x =? 0)%float = true -> out !! i = Some x) /\
    (forall i x, sel !! i = Some x -> (x <? 0)%float = false -> out !! i = Some x) /\
    (Forall (fun x => (x =? 0)%float = true) sel -> log st' = log st) /\
    Forall (fun y => (y <? 0)%float = false /\
                     (is_nan y = false -> (0 <=? y)%float = true)) out.
Proof.
  intros Hcn Hco Hdm Hsel.
  exists (clamp <$> sel), (straight_final st sel).
  rewrite (straight_run_fields _ _ _ _ _ _ _ Hcn Hco Hdm), Hsel.
  split; [done|].
  split; [unfold straight_final; simpl; by apply list_lookup_middle|].
  assert (Hkeep : forall i x, sel !! i = Some x -> negative x = false ->
                              (clamp <$> sel) !! i = Some x).
  { intros i x Hi Hx. rewrite list_lookup_fmap, Hi. simpl.
    unfold clamp. by rewrite Hx. }
  split; [intros i x Hi Hx; apply Hkeep; [done | by apply zero_not_negative]|].
  split; [exact Hkeep|]. split.
  - intros Hzero. unfold straight_final. simpl.
    replace (existsb negative sel) with false; [by rewrite (right_id_L [] (++))|].
    symmetry. apply not_true_is_false. intros (x & Hx & Hn)%existsb_exists.
    apply list_elem_of_In in Hx.
    rewrite Forall_forall in Hzero.
    by rewrite (zero_not_negative x (Hzero x Hx)) in Hn.
  - apply Forall_fmap, Forall_forall. intros x _. simpl.
    pose proof (clamp_not_negative x) as Hc.
    split; [exact Hc|]. intros Hnan. by apply not_negative_nonneg.
Qed.

(** Two pores at distance 3 with diameter 3: the computed length is 0. *)
Lemma straight_clamp_is_strict_witness :
  exists out st',
    straight two_pore_network two_pore_geometry "pore.diameter" (two_pore_state 3)
    = (Ok 3, st') /\
    heap st' !! 3 = Some (FloatArr out) /\
    (forall i x, [0%float] !! i = Some x -> (x =? 0)%float = true -> out !! i = Some x) /\
    (forall i x, [0%float] !! i = Some x -> (x <? 0)%float = false -> out !! i = Some x) /\
    (Forall (fun x => (x =? 0)%float = true) [0%float] -> log st' = []) /\
    Forall (fun y => (y <? 0)%float = false /\
                     (is_nan y = false -> (0 <=? y)%float = true)) out.
Proof.
  apply (straight_clamp_is_strict two_pore_network two_pore_geometry
           "pore.diameter"%string (two_pore_state 3)
           [(0, 1)%Z] [Point 0 0 0; Point 3 0 0] [3%float; 3%float]
           [0%float]); reflexivity.
Defined.

(** C9, as stated, fails: with a pore diameter that is not a number the
    computed length is NaN, NaN is not below zero, so it is returned as it
    is, and NaN is not at least zero. *)
Lemma straight_nan_entry :
  exists l st' out,
    straight two_pore_network two_pore_geometry "pore.diameter" (two_pore_state nan)
    = (Ok l, st') /\
    heap st' !! l = Some (FloatArr out) /\
    ~ Forall (fun y => (0 <=? y)%float = true) out.
Proof.
  exists 3, (State (heap (two_pore_state nan) ++ [FloatArr [nan]])
                   (junk (two_pore_state nan)) []), [nan].
  split; [reflexivity|]. split; [reflexivity|].
  by intros [H _]%Forall_cons_1.
Qed.

(** C10.  Whatever its input, a call of [straight] adds at most one message
    to the log.  When the lengths computed for the throats of the geometry
    are [sel], it adds the warning, once, if some entry of [sel] is negative
    and nothing otherwise, whatever the lengths of the other throats of the
    network are: on a network whose second throat has the negative length
    -1, a geometry that owns the first throat only logs nothing. *)
Theorem straight_warns_at_most_once :
  (forall net geo pd st,
      exists w, log (straight net geo pd st).2 = log st ++ w /\ length w <= 1) /\
  (forall net geo pd st cn co dm sel,
      field (net_items net) st "throat.conns" = Some (ConnArr cn) ->
      field (net_items net) st "pore.coords" = Some (PointArr co) ->
      field (net_items net) st pd = Some (FloatArr dm) ->
      straight_value cn co dm (net_throats net (geo_name geo)) = Ok sel ->
      (existsb negative sel = true ->
         log (straight net geo pd st).2 = log st ++ [negative_warning]) /\
      (existsb negative sel = false ->
         log (straight net geo pd st).2 = log st)) /\
  (straight_value [(0, 1)%Z; (1, 2)%Z]
     [Point 0 0 0; Point 3 0 0; Point 3 0 0] [1%float; 1%float; 1%float]
     [0%Z; 1%Z] = Ok [2%float; (-1)%float] /\
   log (straight two_pore_network two_pore_geometry "pore.diameter" outside_state).2 = []).
Proof.
  split; [|split; [|by vm_compute]].
  - intros net geo pd st.
    destruct (straight_outcome net geo pd st) as [[e ->]|(sel & _ & ->)]; simpl.
    + exists []. split; [by rewrite (right_id_L [] (++)) | simpl; lia].
    + eexists. split; [done|]. destruct (existsb negative sel); simpl; lia.
  - intros net geo pd st cn co dm sel Hcn Hco Hdm Hsel.
    rewrite (straight_run_fields _ _ _ _ _ _ _ Hcn Hco Hdm), Hsel. simpl.
    split; intros ->; [done | by rewrite (right_id_L [] (++))].
Qed.

Lemma straight_warns_at_most_once_witness :
  (existsb negative [2%float] = true ->
     log (straight two_pore_network two_pore_geometry "pore.diameter" outside_state).2
     = [] ++ [negative_warning]) /\
  (existsb negative [2%float] = false ->
     log (straight two_pore_network two_pore_geometry "pore.diameter" outside_state).2
     = []).
Proof.
  apply (proj1 (proj2 straight_warns_at_most_once) two_pore_network
           two_pore_geometry "pore.diameter"%string outside_state
           [(0, 1)%Z; (1, 2)%Z] [Point 0 0 0; Point 3 0 0; Point 3 0 0]
           [1%float; 1%float; 1%float] [2%float]); reflexivity.
Defined.

(** ** [voronoi] *)



(** C4.  Let [connections] be the rows of the connection table that the
    throat map selects.  [voronoi] raises the exception of [list.index]
    (the specification's MappingNotFoundError) exactly when an endpoint of
    one of these rows does not occur in the pore map.  When every endpoint
    occurs in it, the geometry holds one centroid per entry of its pore map
    and of its throat map, and the throat centroids are at finite offsets
    from the pore centroids, the call returns. *)
Theorem voronoi_mapping_not_found {blas : Blas} net geo st tm cn pm connections :
  field (geo_items geo) st "throat.map" = Some (IntArr tm) ->
  field (net_items net) st "throat.conns" = Some (ConnArr cn) ->
  field (geo_items geo) st "pore.map" = Some (IntArr pm) ->
  Np.take cn tm = Ok connections ->
  ((exists st', voronoi net geo st = (Raise MappingNotFoundError, st')) <->
   (exists c, c ∈ connections /\ (c.1 ∉ pm \/ c.2 ∉ pm))) /\
  (forall pc tc,
      field (geo_items geo) st "pore.centroid" = Some (PointArr pc) ->
      field (geo_items geo) st "throat.centroid" = Some (PointArr tc) ->
      length pc = length pm -> length tc = length tm ->
      finite_offsets pc tc ->
      Forall (fun c : Z * Z => c.1 ∈ pm /\ c.2 ∈ pm) connections ->
      exists st', voronoi net geo st = (Ok (length (heap st)), st')).
Proof.
  intros Htm Hcn Hpm Hconn. split.
  - rewrite <- (voronoi_value_mapping _ _ _ _ _ _ _ Htm Hcn Hpm Hconn).
    unfold MappingNotFoundError. split.
    + intros [st' H]. destruct (voronoi_run_cases net geo st) as [extra Hrun].
      rewrite H in Hrun.
      destruct (voronoi_value net geo (heap st)) as [out|e]; [done|].
      by injection Hrun as <- _.
    + intros H. destruct (voronoi_run_Raise _ _ _ _ H) as [extra Hrun]. eauto.
  - intros pc tc Hpc Htc Lpc Ltc Hfin Hin.
    destruct (voronoi_arrays_total_conn tm cn pm pc tc connections) as [out Hout];
      try done.
    eexists. apply voronoi_run_Ok.
    by rewrite (voronoi_value_arrays _ _ _ tm cn pm pc tc).
Qed.

(** The two halves at work: the throat of [cross_geometry_state] has an
    endpoint outside the pore map, and the call raises; both endpoints of the
    throat of [voronoi_state] are in the pore map, and the call returns. *)
Lemma voronoi_mapping_not_found_witness :
  (exists st', voronoi (blas := naive_blas)
                 voronoi_network voronoi_geometry cross_geometry_state
               = (Raise MappingNotFoundError, st')) /\
  (exists st', voronoi (blas := naive_blas)
                 voronoi_network voronoi_geometry voronoi_state
               = (Ok 5, st')).
Proof.
  split.
  - apply (proj1 (voronoi_mapping_not_found (blas := naive_blas)
                    voronoi_network voronoi_geometry cross_geometry_state
                    [1%Z] [(0, 1)%Z; (1, 2)%Z] [1%Z] [(1, 2)%Z]
                    eq_refl eq_refl eq_refl eq_refl)).
    exists (1, 2)%Z. split; [apply list_elem_of_here|].
    right. simpl. apply not_elem_of_cons. split; [lia | apply not_elem_of_nil].
  - apply (proj2 (voronoi_mapping_not_found (blas := naive_blas)
                    voronoi_network voronoi_geometry voronoi_state
                    [1%Z] [(0, 1)%Z; (1, 2)%Z] [1%Z; 2%Z] [(1, 2)%Z]
                    eq_refl eq_refl eq_refl eq_refl)
                 [Point 3 0 0; Point 3 4 0] [Point 3 1 0]);
      try reflexivity.
    + by repeat (apply Forall_cons_2 || apply Forall_nil_2).
    + apply Forall_cons_2; [|apply Forall_nil_2]. simpl. set_solver.
Defined.

(** The throat of [cross_geometry_state] spans two geometries, and the call
    fails on its second pore. *)
Example voronoi_cross_geometry {blas : Blas} :
  voronoi voronoi_network voronoi_geometry cross_geometry_state
  = (Raise MappingNotFoundError, cross_geometry_state).
Proof. by vm_compute. Qed.

(** C5.  When [voronoi] returns the array [out], it returns the same array
    after the two endpoints of any throat [t] are exchanged in the
    connection table. *)
Theorem voronoi_endpoint_symmetry {blas : Blas} net geo st lc cn t l st1 out :
  net_items net !! "throat.conns"%string = Some lc ->
  heap st !! lc = Some (ConnArr cn) ->
  voronoi net geo st = (Ok l, st1) ->
  heap st1 !! l = Some (FloatArr out) ->
  exists st2,
    voronoi net geo
      (State (<[lc := ConnArr (alter prod_swap t cn)]> (heap st)) (junk st) (log st))
    = (Ok l, st2) /\
    heap st2 !! l = Some (FloatArr out).
Proof.
  intros Hk Hlc Hrun Hout.
  apply voronoi_run_inv in Hrun as (out' & Hval & -> & ->).
  simpl in Hout. rewrite list_lookup_middle in Hout by done. simplify_eq.
  pose proof (voronoi_value_swap _ _ _ _ _ t _ Hk Hlc Hval) as Hval'.
  eexists. split.
  - erewrite voronoi_run_Ok by exact Hval'. simpl. by rewrite length_insert.
  - simpl. apply list_lookup_middle. by rewrite length_insert.
Qed.

Lemma voronoi_endpoint_symmetry_witness :
  exists st2,
    voronoi (blas := naive_blas) voronoi_network voronoi_geometry
      (State (<[0 := ConnArr (alter prod_swap 1 [(0, 1)%Z; (1, 2)%Z])]>
                (heap voronoi_state))
             (junk voronoi_state) (log voronoi_state))
    = (Ok 5, st2) /\
    heap st2 !! 5 = Some (FloatArr [4%float]).
Proof.
  apply (voronoi_endpoint_symmetry (blas := naive_blas)
           voronoi_network voronoi_geometry voronoi_state
           0 [(0, 1)%Z; (1, 2)%Z] 1 5
           (State (heap voronoi_state ++ [FloatArr [4%float]])
                  (junk voronoi_state) (log voronoi_state))
           [4%float]); reflexivity.
Defined.

(** C6.  [list.index] maps a network pore index to the first position of
    the pore map that holds it.  On a geometry whose pore map is the
    identity [0, 1, ..., n-1], and whose throats join pores among these,
    [voronoi] behaves as [voronoi_direct], which indexes the centroids by the
    network pore index, and as [voronoi_hashed], which looks the position up
    in a reverse map built once; [voronoi] and [voronoi_hashed] behave alike
    on every geometry that holds a pore map. *)
Theorem voronoi_index_translation {blas : Blas} :
  (forall pm p g,
      Np.index pm p = Ok g <->
      pm !! g = Some p /\ forall j, j < g -> pm !! j <> Some p) /\
  (forall net geo st tm cn n connections,
      field (geo_items geo) st "throat.map" = Some (IntArr tm) ->
      field (net_items net) st "throat.conns" = Some (ConnArr cn) ->
      field (geo_items geo) st "pore.map" = Some (IntArr (Z.of_nat <$> seq 0 n)) ->
      Np.take cn tm = Ok connections ->
      Forall (fun c : Z * Z => valid_index n c.1 /\ valid_index n c.2) connections ->
      voronoi net geo st = voronoi_direct net geo st /\
      voronoi net geo st = voronoi_hashed net geo st) /\
  (forall net geo st pm,
      field (geo_items geo) st "pore.map" = Some (IntArr pm) ->
      voronoi net geo st = voronoi_hashed net geo st).
Proof.
  assert (Hhashed : forall net geo st pm,
      field (geo_items geo) st "pore.map" = Some (IntArr pm) ->
      voronoi net geo st = voronoi_hashed net geo st).
  { intros net geo st pm Hfield.
    pose proof Hfield as (lp & Hlp & Hpm)%field_Some.
    unfold voronoi, voronoi_hashed.
    repeat py_step.
    destruct (geo_items geo !! "throat.map"%string) as [l|]; [|done].
    repeat py_step.
    destruct (heap st !! l) as [[tm| | |]|]; try done.
    repeat py_step.
    destruct (net_items net !! "throat.conns"%string) as [lc|]; [|done].
    repeat py_step.
    destruct (heap st !! lc) as [[|cn| |]|]; try done.
    repeat py_step.
    destruct (Np.take cn tm) as [connections|]; [|done].
    repeat py_step. rewrite Hlp. repeat py_step. rewrite Hpm. py_step.
    rewrite !bind_geom_pore_loop, !bind_for_append_lift.
    rewrite !(traverse_ext (geom_pore geo (heap st)) (Np.index pm))
      by (intros; by apply geom_pore_field).
    rewrite !(traverse_ext (reverse_lookup (reverse_map pm)) (Np.index pm))
      by (intros; apply reverse_lookup_index).
    destruct (traverse _ (fst <$> connections)) as [g1|]; [|done].
    rewrite !bind_geom_pore_loop, !bind_for_append_lift.
    rewrite !(traverse_ext (geom_pore geo (heap st)) (Np.index pm))
      by (intros; by apply geom_pore_field).
    rewrite !(traverse_ext (reverse_lookup (reverse_map pm)) (Np.index pm))
      by (intros; apply reverse_lookup_index).
    done. }
  split; [apply index_Ok|]. split; [|exact Hhashed].
  intros net geo st tm cn n connections Htm Hcn Hpm Hconn Hvalid.
  split; [|by eapply Hhashed].
  pose proof Htm as (l & Hl & Hl')%field_Some.
  pose proof Hcn as (lc & Hlc & Hlc')%field_Some.
  unfold voronoi, voronoi_direct.
  repeat py_step. rewrite Hl. repeat py_step. rewrite Hl'.
  repeat py_step. rewrite Hlc. repeat py_step. rewrite Hlc'.
  repeat py_step. rewrite Hconn.
  rewrite !bind_geom_pore_loop.
  rewrite !(traverse_ext (geom_pore geo (heap st)) (Np.index (Z.of_nat <$> seq 0 n)))
    by (intros; by apply geom_pore_field).
  assert (H1 : Forall (valid_index n) (fst <$> connections)).
  { apply Forall_fmap. eapply Forall_impl; [exact Hvalid|]. by intros c [? _]. }
  assert (H2 : Forall (valid_index n) (snd <$> connections)).
  { apply Forall_fmap. eapply Forall_impl; [exact Hvalid|]. by intros c [_ ?]. }
  rewrite (traverse_index_identity _ _ H1).
  rewrite !bind_geom_pore_loop.
  rewrite !(traverse_ext (geom_pore geo (heap st)) (Np.index (Z.of_nat <$> seq 0 n)))
    by (intros; by apply geom_pore_field).
  rewrite (traverse_index_identity _ _ H2).
  by rewrite (of_nat_to_nat_valid _ _ H1), (of_nat_to_nat_valid _ _ H2).
Qed.

Lemma voronoi_index_translation_witness :
  voronoi (blas := naive_blas) identity_network identity_geometry identity_state
  = voronoi_direct (blas := naive_blas)
      identity_network identity_geometry identity_state /\
  voronoi (blas := naive_blas) identity_network identity_geometry identity_state
  = voronoi_hashed (blas := naive_blas)
      identity_network identity_geometry identity_state.
Proof.
  apply (proj1 (proj2 (voronoi_index_translation (blas := naive_blas)))
           identity_network identity_geometry identity_state
           [0%Z; 1%Z] [(0, 1)%Z; (1, 2)%Z] 3 [(0, 1)%Z; (1, 2)%Z]);
    try reflexivity.
  repeat (apply Forall_cons_2 || apply Forall_nil_2);
    unfold valid_index; simpl; lia.
Defined.

(** ** Both functions *)

(** C7.  Whatever their input, and whether they return or raise, [straight]
    and [voronoi] leave every array that was in the store as it was: the
    store after the call is the store before it followed by the arrays the
    call allocated.  So every array a network or a geometry holds under a key
    (coordinates, connections, properties, maps, centroids) is, after the
    call, the array it was before.  [voronoi] leaves the log alone as well,
    and [straight] only appends to it. *)
Theorem throat_length_frame {blas : Blas} :
  (forall net geo pd st,
      exists extra w,
        (straight net geo pd st).2 =
        State (heap st ++ extra) (junk st) (log st ++ w)) /\
  (forall net geo st,
      exists extra,
        (voronoi net geo st).2 = State (heap st ++ extra) (junk st) (log st)) /\
  (forall net geo pd st items key a,
      field items st key = Some a ->
      field items (straight net geo pd st).2 key = Some a /\
      field items (voronoi net geo st).2 key = Some a).
Proof.
  assert (Hs : forall net geo pd st, exists extra w,
             (straight net geo pd st).2 =
             State (heap st ++ extra) (junk st) (log st ++ w)).
  { intros net geo pd st.
    destruct (straight_outcome net geo pd st) as [[e ->]|(sel & _ & ->)]; simpl.
    - exists [], []. rewrite !(right_id_L [] (++)). by destruct st.
    - by do 2 eexists. }
  assert (Hv : forall net geo st, exists extra,
             (voronoi net geo st).2 = State (heap st ++ extra) (junk st) (log st)).
  { intros net geo st.
    destruct (voronoi_run_cases net geo st) as [extra ->].
    destruct (voronoi_value net geo (heap st)); simpl; by eexists. }
  split; [exact Hs|]. split; [exact Hv|].
  intros net geo pd st items key a Hf.
  destruct (Hs net geo pd st) as (e1 & w & ->).
  destruct (Hv net geo st) as (e2 & ->).
  unfold field in *. destruct (items !! key) as [l|]; [|done]. simpl.
  split; by apply lookup_app_l_Some.
Qed.

Lemma throat_length_frame_witness :
  field (net_items two_pore_network)
    (straight two_pore_network two_pore_geometry "pore.diameter" (two_pore_state 10)).2
    "pore.diameter" = Some (FloatArr [10%float; 10%float]) /\
  field (net_items two_pore_network)
    (voronoi (blas := naive_blas)
       two_pore_network two_pore_geometry (two_pore_state 10)).2
    "pore.diameter" = Some (FloatArr [10%float; 10%float]).
Proof.
  apply (proj2 (proj2 (throat_length_frame (blas := naive_blas)))
           two_pore_network two_pore_geometry
           "pore.diameter"%string (two_pore_state 10) (net_items two_pore_network)
           "pore.diameter"%string (FloatArr [10%float; 10%float])).
  reflexivity.
Defined.

(** ** The other failures the specification names *)

(** A diameter property the network does not hold. *)
Example straight_missing_property :
  straight two_pore_network two_pore_geometry "pore.size" (two_pore_state 1)
  = (Raise MissingPropertyError, two_pore_state 1).
Proof. by vm_compute. Qed.

(** A connection to a pore the network does not have. *)
Example straight_invalid_topology :
  straight two_pore_network two_pore_geometry "pore.diameter"
    (State [ConnArr [(0, 5)%Z]; PointArr [Point 0 0 0; Point 3 0 0];
            FloatArr [1%float; 1%float]] (fun _ => 0%float) [])
  = (Raise InvalidTopologyError,
     State [ConnArr [(0, 5)%Z]; PointArr [Point 0 0 0; Point 3 0 0];
            FloatArr [1%float; 1%float]] (fun _ => 0%float) []).
Proof. by vm_compute. Qed.

(* ================================================================== *)
(** * Part V: further properties of the code *)

(** ** [straight] *)

(** X1.  When the network holds no array under the diameter name,
    [straight] raises [KeyError] (the specification's MissingPropertyError)
    and changes nothing, provided the connection table and the coordinates
    are there and every endpoint is an index NumPy accepts for the
    coordinates: the coordinates are read first. *)
Theorem straight_missing_diameter net geo pd st cn co :
  field (net_items net) st "throat.conns" = Some (ConnArr cn) ->
  field (net_items net) st "pore.coords" = Some (PointArr co) ->
  Forall (fun c : Z * Z => in_range (length co) c.1 /\ in_range (length co) c.2) cn ->
  net_items net !! pd = None ->
  straight net geo pd st = (Raise MissingPropertyError, st).
Proof.
  intros Hcn Hco Hin Hpd. rewrite straight_run_cases. unfold straight_selected.
  rewrite (read_conns_field _ _ _ _ Hcn), (read_points_field _ _ _ _ Hco). simpl.
  destruct (proj2 (take_in_range co (fst <$> cn))) as [C1 HC1].
  { apply Forall_fmap. eapply Forall_impl; [exact Hin|]. by intros c [? _]. }
  destruct (proj2 (take_in_range co (snd <$> cn))) as [C2 HC2].
  { apply Forall_fmap. eapply Forall_impl; [exact Hin|]. by intros c [_ ?]. }
  rewrite HC1, HC2. simpl.
  rewrite NpFacts.broadcast_same. 2:{
    rewrite (NpFacts.take_length _ _ _ HC1), (NpFacts.take_length _ _ _ HC2).
    by rewrite !length_fmap. }
  simpl. unfold read_floats. by rewrite Hpd.
Qed.

Lemma straight_missing_diameter_witness :
  straight two_pore_network two_pore_geometry "pore.size" (two_pore_state 1)
  = (Raise MissingPropertyError, two_pore_state 1).
Proof.
  apply (straight_missing_diameter two_pore_network two_pore_geometry
           "pore.size"%string (two_pore_state 1)
           [(0, 1)%Z] [Point 0 0 0; Point 3 0 0]); try reflexivity.
  repeat (apply Forall_cons_2 || apply Forall_nil_2); unfold in_range; simpl; lia.
Defined.

(** X2.  [straight] computes a length for every throat of the network
    before it selects those of the geometry: when an endpoint of any row of
    the connection table, of the geometry or not, is not an index NumPy
    accepts for the coordinates, the call raises [IndexError] (the
    specification's InvalidTopologyError) and changes nothing, whatever the
    geometry and the diameter name are. *)
Theorem straight_bad_endpoint net geo pd st cn co c :
  field (net_items net) st "throat.conns" = Some (ConnArr cn) ->
  field (net_items net) st "pore.coords" = Some (PointArr co) ->
  c ∈ cn ->
  ~ in_range (length co) c.1 \/ ~ in_range (length co) c.2 ->
  straight net geo pd st = (Raise InvalidTopologyError, st).
Proof.
  intros Hcn Hco Hc Hbad. rewrite straight_run_cases. unfold straight_selected.
  rewrite (read_conns_field _ _ _ _ Hcn), (read_points_field _ _ _ _ Hco). simpl.
  destruct (Np.take co (fst <$> cn)) as [C1|e] eqn:HC1; simpl.
  - destruct (Np.take co (snd <$> cn)) as [C2|e] eqn:HC2; simpl.
    + exfalso.
      assert (H1 : Forall (in_range (length co)) (fst <$> cn))
        by (apply take_in_range; eauto).
      assert (H2 : Forall (in_range (length co)) (snd <$> cn))
        by (apply take_in_range; eauto).
      rewrite Forall_fmap, Forall_forall in H1, H2.
      destruct Hbad as [Hb|Hb]; apply Hb; [by apply H1 | by apply H2].
    + by rewrite (take_Raise _ _ _ HC2).
  - by rewrite (take_Raise _ _ _ HC1).
Qed.

Lemma straight_bad_endpoint_witness :
  straight two_pore_network two_pore_geometry "pore.diameter" dangling_state
  = (Raise InvalidTopologyError, dangling_state).
Proof.
  apply (straight_bad_endpoint two_pore_network two_pore_geometry
           "pore.diameter"%string dangling_state
           [(0, 1)%Z; (1, 5)%Z] [Point 0 0 0; Point 3 0 0] (1, 5)%Z);
    try reflexivity.
  - set_solver.
  - right. unfold in_range. simpl. lia.
Defined.

(** X3.  The length of a throat does not depend on the geometry it is
    computed for: when two geometries of a network both list throat [t],
    the entries that two calls of [straight] return for it are the same. *)
Theorem straight_same_throat_same_length
    net geo1 geo2 pd st l1 st1 out1 l2 st2 out2 i j t :
  straight net geo1 pd st = (Ok l1, st1) ->
  heap st1 !! l1 = Some (FloatArr out1) ->
  straight net geo2 pd st = (Ok l2, st2) ->
  heap st2 !! l2 = Some (FloatArr out2) ->
  net_throats net (geo_name geo1) !! i = Some t ->
  net_throats net (geo_name geo2) !! j = Some t ->
  is_Some (out1 !! i) /\ out1 !! i = out2 !! j.
Proof.
  intros (sel1 & H1 & -> & ->)%straight_run_inv Ho1
         (sel2 & H2 & -> & ->)%straight_run_inv Ho2 Hi Hj.
  simpl in Ho1, Ho2. rewrite list_lookup_middle in Ho1, Ho2 by done.
  simplify_eq.
  apply straight_selected_Ok in H1 as (cn & co & dm & Hcn & Hco & Hdm & H1).
  apply straight_selected_Ok in H2 as (cn' & co' & dm' & Hcn' & Hco' & Hdm' & H2).
  rewrite Hcn in Hcn'. rewrite Hco in Hco'. rewrite Hdm in Hdm'. simplify_eq.
  destruct (straight_value_lookup _ _ _ _ _ _ _ H1 Hi)
    as (p1 & p2 & c1 & c2 & d1 & d2 & ? & ? & ? & ? & ? & E1).
  destruct (straight_value_lookup _ _ _ _ _ _ _ H2 Hj)
    as (p1' & p2' & c1' & c2' & d1' & d2' & I & I1 & I2 & I3 & I4 & E2).
  rewrite I in *. simplify_eq.
  rewrite I1 in *. rewrite I2 in *. rewrite I3 in *. rewrite I4 in *.
  simplify_eq.
  rewrite !list_lookup_fmap, E1, E2. simpl. split; [by eexists | done].
Qed.

Lemma straight_same_throat_same_length_witness :
  is_Some ([2%float] !! 0) /\
  [2%float] !! 0 = [floor_value; 2%float] !! 1.
Proof.
  apply (straight_same_throat_same_length shared_network two_pore_geometry
           all_geometry "pore.diameter"%string outside_state
           3 (State (heap outside_state ++ [FloatArr [2%float]])
                    (junk outside_state) [])
           [2%float]
           3 (State (heap outside_state ++ [FloatArr [floor_value; 2%float]])
                    (junk outside_state) [negative_warning])
           [floor_value; 2%float] 0 1 0%Z); reflexivity.
Defined.

(** X4.  [straight] does not depend on the order of the two endpoints of a
    throat: when a call returns the array [out], it returns the same array,
    and logs the same, after the endpoints of any throat [t] are exchanged in
    the connection table. *)
Theorem straight_endpoint_symmetry net geo pd st lc cn t l st1 out :
  net_items net !! "throat.conns"%string = Some lc ->
  heap st !! lc = Some (ConnArr cn) ->
  straight net geo pd st = (Ok l, st1) ->
  heap st1 !! l = Some (FloatArr out) ->
  exists st2,
    straight net geo pd
      (State (<[lc := ConnArr (alter prod_swap t cn)]> (heap st)) (junk st) (log st))
    = (Ok l, st2) /\
    heap st2 !! l = Some (FloatArr out) /\
    log st2 = log st1.
Proof.
  intros Hk Hlc (sel & Hsel & -> & ->)%straight_run_inv Hout.
  simpl in Hout. rewrite list_lookup_middle in Hout by done. simplify_eq.
  apply straight_selected_Ok in Hsel as (cn0 & co & dm & Hcn & Hco & Hdm & Hval).
  assert (cn0 = cn) as ->.
  { unfold read_conns in Hcn. rewrite Hk, Hlc in Hcn. by simplify_eq. }
  set (h' := <[lc := ConnArr (alter prod_swap t cn)]> (heap st)).
  assert (Hsel' : straight_selected net geo pd h' = Ok sel).
  { apply straight_selected_Ok. exists (alter prod_swap t cn), co, dm.
    split; [by apply (read_conns_replace _ _ cn)|].
    split; [unfold h'; by rewrite (read_points_replace _ _ cn)|].
    split; [unfold h'; by rewrite (read_floats_replace _ _ cn)|].
    eapply straight_value_swap; [apply alter_swapped | done]. }
  eexists. rewrite straight_run_cases. simpl. fold h'. rewrite Hsel'.
  unfold straight_final, h'. simpl. rewrite length_insert.
  split; [done|]. split; [|done].
  apply list_lookup_middle. by rewrite length_insert.
Qed.

Lemma straight_endpoint_symmetry_witness :
  exists st2,
    straight two_pore_network two_pore_geometry "pore.diameter"
      (State (<[0 := ConnArr (alter prod_swap 0 [(0, 1)%Z])]>
                (heap (two_pore_state 1)))
             (junk (two_pore_state 1)) (log (two_pore_state 1)))
    = (Ok 3, st2) /\
    heap st2 !! 3 = Some (FloatArr [2%float]) /\
    log st2 = [].
Proof.
  apply (straight_endpoint_symmetry two_pore_network two_pore_geometry
           "pore.diameter"%string (two_pore_state 1) 0 [(0, 1)%Z] 0 3
           (State (heap (two_pore_state 1) ++ [FloatArr [2%float]])
                  (junk (two_pore_state 1)) [])
           [2%float]); reflexivity.
Defined.

(** X5.  A call of [straight] can be repeated: run again on the state the
    first call left, it returns the same lengths in another new array, and
    the array the first call returned is still what it was. *)
Theorem straight_repeatable net geo pd st l st1 out :
  straight net geo pd st = (Ok l, st1) ->
  heap st1 !! l = Some (FloatArr out) ->
  exists st2,
    straight net geo pd st1 = (Ok (S l), st2) /\
    heap st2 !! S l = Some (FloatArr out) /\
    heap st2 !! l = Some (FloatArr out).
Proof.
  intros (sel & Hsel & -> & ->)%straight_run_inv Hout.
  simpl in Hout. rewrite list_lookup_middle in Hout by done. simplify_eq.
  eexists. rewrite straight_run_cases. unfold straight_final at 1. simpl.
  rewrite (straight_selected_extend _ _ _ _ _ _ Hsel).
  unfold straight_final. simpl. rewrite length_app. simpl.
  rewrite Nat.add_1_r. split; [done|]. split.
  - apply list_lookup_middle. rewrite length_app. simpl. lia.
  - apply lookup_app_l_Some. by apply list_lookup_middle.
Qed.

Lemma straight_repeatable_witness :
  exists st2,
    straight two_pore_network two_pore_geometry "pore.diameter"
      (State (heap (two_pore_state 10) ++ [FloatArr [floor_value]])
             (junk (two_pore_state 10)) [negative_warning])
    = (Ok 4, st2) /\
    heap st2 !! 4 = Some (FloatArr [floor_value]) /\
    heap st2 !! 3 = Some (FloatArr [floor_value]).
Proof.
  apply (straight_repeatable two_pore_network two_pore_geometry
           "pore.diameter"%string (two_pore_state 10) 3
           (State (heap (two_pore_state 10) ++ [FloatArr [floor_value]])
                  (junk (two_pore_state 10)) [negative_warning])
           [floor_value]); reflexivity.
Defined.

(** ** [voronoi] *)

(** X6.  [voronoi] allocates its result uninitialised and fills it entry by
    entry; no entry it returns is what the allocation left there: from two
    states that differ in the contents of uninitialised memory only, it
    returns the same array. *)
Theorem voronoi_ignores_uninitialised {blas : Blas} net geo h j1 j2 lg l st1 out :
  voronoi net geo (State h j1 lg) = (Ok l, st1) ->
  heap st1 !! l = Some (FloatArr out) ->
  exists st2,
    voronoi net geo (State h j2 lg) = (Ok l, st2) /\
    heap st2 !! l = Some (FloatArr out).
Proof.
  intros (out' & Hv & -> & ->)%voronoi_run_inv Hout. simpl in *.
  rewrite list_lookup_middle in Hout by done. simplify_eq.
  eexists. split; [by apply voronoi_run_Ok|].
  simpl. by apply list_lookup_middle.
Qed.

Lemma voronoi_ignores_uninitialised_witness :
  exists st2,
    voronoi (blas := naive_blas) voronoi_network voronoi_geometry
      (State (heap voronoi_state) (fun _ => 7%float) []) = (Ok 5, st2) /\
    heap st2 !! 5 = Some (FloatArr [4%float]).
Proof.
  apply (voronoi_ignores_uninitialised (blas := naive_blas)
           voronoi_network voronoi_geometry
           (heap voronoi_state) (fun _ => 0%float) (fun _ => 7%float) [] 5
           (State (heap voronoi_state ++ [FloatArr [4%float]])
                  (fun _ => 0%float) [])
           [4%float]); reflexivity.
Defined.

(** X7.  With a library whose [nrm2] returns nothing below zero for a
    finite row, [voronoi] needs no clamp: every length it returns is the sum
    of two such results, so none is below zero, and every one that is a number
    (not NaN) is at least zero.  Only finite rows reach the library. *)
Theorem voronoi_never_negative {blas : Blas} net geo st l st1 out :
  (forall r, is_finite (px r) = true -> is_finite (py r) = true ->
             is_finite (pz r) = true -> (nrm2 r <? 0)%float = false) ->
  voronoi net geo st = (Ok l, st1) ->
  heap st1 !! l = Some (FloatArr out) ->
  Forall (fun y => (y <? 0)%float = false /\
                   (is_nan y = false -> (0 <=? y)%float = true)) out.
Proof.
  intros Hlib (out' & Hv & -> & ->)%voronoi_run_inv Hout. simpl in *.
  rewrite list_lookup_middle in Hout by done. simplify_eq.
  unfold voronoi_value in Hv.
  apply rbind_Ok in Hv as ([[n v1] v2] & _ & Hv).
  apply traverse_Ok in Hv. apply Forall_lookup. intros i y Hy.
  destruct (Forall2_lookup_r _ _ _ _ _ Hv Hy) as (k & _ & Hk).
  apply (throat_sum_not_negative _ _ _ _ Hlib) in Hk.
  split; [exact Hk | intros Hnan; by apply not_negative_nonneg].
Qed.

Lemma voronoi_never_negative_witness :
  Forall (fun y => (y <? 0)%float = false /\
                   (is_nan y = false -> (0 <=? y)%float = true)) [4%float].
Proof.
  apply (voronoi_never_negative (blas := naive_blas)
           voronoi_network voronoi_geometry voronoi_state 5
           (State (heap voronoi_state ++ [FloatArr [4%float]])
                  (fun _ => 0%float) [])
           [4%float]); [|reflexivity|reflexivity].
  intros r _ _ _. apply naive_blas_not_negative.
Defined.

(** X8.  On a geometry without throats (an empty throat map) that holds at
    most one throat centroid, [voronoi] returns a new empty array.  The
    loops do not run, so the pore map is not read: the geometry need not
    hold one. *)
Theorem voronoi_empty_throat_map {blas : Blas} net geo st cn pc tc :
  field (geo_items geo) st "throat.map" = Some (IntArr []) ->
  field (net_items net) st "throat.conns" = Some (ConnArr cn) ->
  field (geo_items geo) st "pore.centroid" = Some (PointArr pc) ->
  field (geo_items geo) st "throat.centroid" = Some (PointArr tc) ->
  length tc <= 1 ->
  voronoi net geo st =
  (Ok (length (heap st)), State (heap st ++ [FloatArr []]) (junk st) (log st)).
Proof.
  intros Htm Hcn Hpc Htc Hlen. apply voronoi_run_Ok.
  unfold voronoi_value, voronoi_vectors.
  rewrite (read_ints_field _ _ _ _ Htm), (read_conns_field _ _ _ _ Hcn),
    (read_points_field _ _ _ _ Hpc), (read_points_field _ _ _ _ Htc).
  destruct tc as [|x [|? ?]]; [done | done | simpl in Hlen; lia].
Qed.

Lemma voronoi_empty_throat_map_witness :
  voronoi (blas := naive_blas) voronoi_network empty_geometry empty_state =
  (Ok 4, State (heap empty_state ++ [FloatArr []]) (junk empty_state) []).
Proof.
  apply (voronoi_empty_throat_map (blas := naive_blas)
           voronoi_network empty_geometry empty_state
           [(0, 1)%Z] [Point 0 0 0] []); try reflexivity.
  simpl. lia.
Defined.

(** X9.  When an entry of the throat map is not an index NumPy accepts for
    the connection table, [voronoi] raises [IndexError]. *)
Theorem voronoi_bad_throat_index {blas : Blas} net geo st tm cn t :
  field (geo_items geo) st "throat.map" = Some (IntArr tm) ->
  field (net_items net) st "throat.conns" = Some (ConnArr cn) ->
  t ∈ tm -> ~ in_range (length cn) t ->
  (voronoi net geo st).1 = Raise IndexError.
Proof.
  intros Htm Hcn Ht Hbad.
  assert (Hv : voronoi_value net geo (heap st) = Raise IndexError).
  { unfold voronoi_value, voronoi_vectors.
    rewrite (read_ints_field _ _ _ _ Htm), (read_conns_field _ _ _ _ Hcn). simpl.
    destruct (Np.take cn tm) as [connections|e] eqn:Hconn; simpl.
    - exfalso. apply Hbad.
      assert (H : Forall (in_range (length cn)) tm) by (apply take_in_range; eauto).
      rewrite Forall_forall in H. by apply H.
    - by rewrite (take_Raise _ _ _ Hconn). }
  destruct (voronoi_run_Raise _ _ _ _ Hv) as [extra ->]. done.
Qed.

Lemma voronoi_bad_throat_index_witness :
  (voronoi (blas := naive_blas)
     voronoi_network voronoi_geometry bad_throat_state).1 = Raise IndexError.
Proof.
  apply (voronoi_bad_throat_index (blas := naive_blas)
           voronoi_network voronoi_geometry bad_throat_state
           [2%Z] [(0, 1)%Z; (1, 2)%Z] 2%Z); try reflexivity.
  - set_solver.
  - unfold in_range. simpl. lia.
Defined.

(** X10.  The centroids are read after the two translation loops: on a
    geometry whose throats are throats of the network and whose pore map
    holds both endpoints of each, [voronoi] raises [KeyError] when the
    geometry holds no pore centroids, and when it holds pore centroids and no
    throat centroids. *)
Theorem voronoi_missing_centroid {blas : Blas} net geo st tm cn pm connections :
  field (geo_items geo) st "throat.map" = Some (IntArr tm) ->
  field (net_items net) st "throat.conns" = Some (ConnArr cn) ->
  field (geo_items geo) st "pore.map" = Some (IntArr pm) ->
  Np.take cn tm = Ok connections ->
  Forall (fun c : Z * Z => c.1 ∈ pm /\ c.2 ∈ pm) connections ->
  geo_items geo !! "pore.centroid"%string = None \/
  (exists pc, field (geo_items geo) st "pore.centroid" = Some (PointArr pc)) /\
  geo_items geo !! "throat.centroid"%string = None ->
  (voronoi net geo st).1 = Raise KeyError.
Proof.
  intros Htm Hcn Hpm Hconn Hin Hmiss.
  assert (Hv : voronoi_value net geo (heap st) = Raise KeyError).
  { unfold voronoi_value, voronoi_vectors.
    rewrite (read_ints_field _ _ _ _ Htm), (read_conns_field _ _ _ _ Hcn). simpl.
    rewrite Hconn. simpl.
    rewrite !(traverse_ext (geom_pore geo (heap st)) (Np.index pm))
      by (intros; by apply geom_pore_field).
    destruct (traverse_index_total pm connections Hin) as [[g1 ->] [g2 ->]]. simpl.
    destruct Hmiss as [Hpc|[[pc Hpc] Htc]].
    - unfold read_points at 1. by rewrite Hpc.
    - rewrite (read_points_field _ _ _ _ Hpc). simpl.
      unfold read_points. by rewrite Htc. }
  destruct (voronoi_run_Raise _ _ _ _ Hv) as [extra ->]. done.
Qed.

Lemma voronoi_missing_centroid_witness :
  (voronoi (blas := naive_blas)
     voronoi_network no_centroid_geometry voronoi_state).1 = Raise KeyError.
Proof.
  apply (voronoi_missing_centroid (blas := naive_blas)
           voronoi_network no_centroid_geometry voronoi_state
           [1%Z] [(0, 1)%Z; (1, 2)%Z] [1%Z; 2%Z] [(1, 2)%Z]); try reflexivity.
  - apply Forall_cons_2; [|apply Forall_nil_2]. simpl. set_solver.
  - by left.
Defined.

(** X11.  The throat centroids are combined with the pore centroids of the
    throats under NumPy's broadcasting: on a geometry whose maps pass the two
    translation loops and that holds a pore centroid for every entry of the
    pore map, [voronoi] raises [ValueError] when the number of throat
    centroids is not the number of throats, unless one of the two numbers is
    one. *)
Theorem voronoi_centroid_count_mismatch {blas : Blas} net geo st tm cn pm pc tc connections :
  voronoi_fields net geo st tm cn pm pc tc ->
  Np.take cn tm = Ok connections ->
  Forall (fun c : Z * Z => c.1 ∈ pm /\ c.2 ∈ pm) connections ->
  length pm <= length pc ->
  length tc <> length tm -> length tc <> 1 -> length tm <> 1 ->
  (voronoi net geo st).1 = Raise (ValueError BroadcastMismatch).
Proof.
  intros Hf Hconn Hin Hpc Hne Htc1 Htm1.
  assert (Hv : voronoi_value net geo (heap st)
               = Raise (ValueError BroadcastMismatch)).
  { rewrite (voronoi_value_arrays _ _ _ _ _ _ _ _ Hf). unfold voronoi_arrays.
    rewrite Hconn. simpl.
    destruct (traverse_index_total pm connections Hin) as [[g1 Hg1] [g2 Hg2]].
    rewrite Hg1, Hg2. simpl.
    destruct (take_index_total _ _ _ _ Hg1 Hpc) as [q1 Hq1].
    rewrite Hq1. simpl.
    pose proof (NpFacts.take_length _ _ _ Hconn) as Lc.
    pose proof (traverse_length _ _ _ Hg1) as L1.
    pose proof (NpFacts.take_length _ _ _ Hq1) as L3.
    rewrite length_fmap in L1. rewrite length_fmap in L3.
    rewrite broadcast_mismatch by congruence. done. }
  destruct (voronoi_run_Raise _ _ _ _ Hv) as [extra ->]. done.
Qed.

Lemma voronoi_centroid_count_mismatch_witness :
  (voronoi (blas := naive_blas) identity_network identity_geometry mismatch_state).1
  = Raise (ValueError BroadcastMismatch).
Proof.
  apply (voronoi_centroid_count_mismatch (blas := naive_blas)
           identity_network identity_geometry
           mismatch_state [0%Z; 1%Z] [(0, 1)%Z; (1, 2)%Z] [0%Z; 1%Z; 2%Z]
           [Point 0 0 0; Point 3 0 0; Point 3 4 0]
           [Point 1 0 0; Point 3 1 0; Point 3 2 0]
           [(0, 1)%Z; (1, 2)%Z]); try reflexivity; try (simpl; lia).
  - by split.
  - repeat (apply Forall_cons_2 || apply Forall_nil_2); simpl; set_solver.
Defined.

(** X12.  [linalg.norm] refuses a row that holds a NaN or an infinity: on a
    geometry whose maps and centroids are consistent with each other and with
    the network, [voronoi] raises [ValueError] when, for some throat of the
    throat map, a coordinate of the throat's centroid and the same coordinate
    of the centroid of one of its two pores have a difference that is not
    finite.  The centroid of a pore is the one at the first position of the
    pore map that holds the pore.  This holds for every library. *)
Theorem voronoi_not_finite {blas : Blas}
    net geo st tm cn pm pc tc i t p1 p2 g1 g2 c1 c2 tci :
  voronoi_fields net geo st tm cn pm pc tc ->
  voronoi_consistent tm cn pm pc tc ->
  tm !! i = Some t -> cn !! Z.to_nat t = Some (p1, p2) ->
  (pm !! g1 = Some p1 /\ forall j, j < g1 -> pm !! j <> Some p1) ->
  (pm !! g2 = Some p2 /\ forall j, j < g2 -> pm !! j <> Some p2) ->
  pc !! g1 = Some c1 -> pc !! g2 = Some c2 -> tc !! i = Some tci ->
  is_finite (px tci - px c1) && is_finite (py tci - py c1)
    && is_finite (pz tci - pz c1) = false \/
  is_finite (px tci - px c2) && is_finite (py tci - py c2)
    && is_finite (pz tci - pz c2) = false ->
  (voronoi net geo st).1 = Raise (ValueError NotFinite).
Proof.
  intros Hf Hc Hi Ht Hg1 Hg2 Hc1 Hc2 Htci Hbad.
  assert (Hv : voronoi_value net geo (heap st) = Raise (ValueError NotFinite)).
  { rewrite (voronoi_value_arrays _ _ _ _ _ _ _ _ Hf).
    destruct (voronoi_arrays tm cn pm pc tc) as [out|e] eqn:Hout.
    - exfalso.
      destruct (voronoi_arrays_lookup_finite _ _ _ _ _ _ _ _
                  (vc_throat_centroid _ _ _ _ _ Hc) Hout Hi)
        as (p1' & p2' & g1' & g2' & c1' & c2' & tci' & Hitem & Hi1 & Hi2 &
            Hc1' & Hc2' & Htci' & _ & F1 & F2).
      assert (Hrow : cn !! Z.to_nat t = Some (p1', p2')).
      { apply NpFacts.item_nat_inv. rewrite Z2Nat.id; [done|].
        apply (Forall_lookup_1 _ _ _ _ (vc_throats _ _ _ _ _ Hc) Hi). }
      rewrite Ht in Hrow. injection Hrow as <- <-.
      apply index_Ok in Hg1, Hg2.
      rewrite Hi1 in Hg1. rewrite Hi2 in Hg2.
      injection Hg1 as ->. injection Hg2 as ->.
      rewrite Hc1' in Hc1. rewrite Hc2' in Hc2. rewrite Htci' in Htci.
      injection Hc1 as ->. injection Hc2 as ->. injection Htci as ->.
      unfold Np.all_finite, Np.sub3 in F1, F2. simpl in F1, F2.
      destruct Hbad as [Hbad|Hbad]; congruence.
    - destruct (voronoi_consistent_connections _ _ _ _ _ Hc)
        as (connections & Hconn & Hin).
      f_equal. eapply voronoi_arrays_Raise; try done.
      + by rewrite (vc_pore_centroid _ _ _ _ _ Hc).
      + apply (vc_throat_centroid _ _ _ _ _ Hc). }
  destruct (voronoi_run_Raise _ _ _ _ Hv) as [extra ->]. done.
Qed.

Lemma voronoi_not_finite_witness :
  (voronoi (blas := naive_blas)
     voronoi_network voronoi_geometry nan_centroid_state).1
  = Raise (ValueError NotFinite).
Proof.
  apply (voronoi_not_finite (blas := naive_blas)
           voronoi_network voronoi_geometry nan_centroid_state
           [1%Z] [(0, 1)%Z; (1, 2)%Z] [1%Z; 2%Z]
           [Point 3 0 0; Point nan 4 0] [Point 3 1 0]
           0 1%Z 1%Z 2%Z 0 1 (Point 3 0 0) (Point nan 4 0) (Point 3 1 0));
    try reflexivity.
  - by split.
  - split; [| |done|done].
    + apply Forall_cons_2; [|apply Forall_nil_2]. unfold valid_index. simpl. lia.
    + apply Forall_cons_2; [|apply Forall_nil_2].
      intros c [= <-]. split; set_solver.
  - split; [done|]. intros j Hj. lia.
  - split; [done|]. intros j Hj. destruct j as [|j]; [done | lia].
  - by right.
Defined.
